(** * Quote anchoring and annotation layout of the feedback page

    A shallow embedding of the annotation engine of [src/app/page.tsx]:
    [normalizeText], [findBestSubstringMatch] and the body of the [useMemo]
    callback that marks the proposal text and orders the side-bar
    annotations.

    JavaScript strings are sequences of UTF-16 code units; they are
    modelled as lists of [N].  Lengths and indices are [Z], as the code
    subtracts from them before clamping with [Math.max].  Exceptions are
    modelled with a completion type, [try]/[catch] with [tryCatch].

    What the page takes from the platform is a parameter of the model:
    the function [toLowerCase] and the regular-expression engine behind
    [new RegExp] and [match], which can throw.  The properties are proved
    for every such function and every engine unless they say otherwise; a
    case table for Latin-1 and a small engine for the patterns the page
    builds are given to run the model. *)

From Stdlib Require Import String Ascii DecimalString DecimalNat.
From Stdlib Require Import ZArith NArith QArith Bool Lia.
From Stdlib Require Import List Permutation Sorted.
Import ListNotations.

Set Implicit Arguments.
Local Open Scope Z_scope.

(** ** Strings of code units *)

Definition char := N.
Definition jsstring := list char.

(** An ASCII literal of the source as a string of code units. *)
Definition lit (s : string) : jsstring :=
  map N_of_ascii (list_ascii_of_string s).

Definition strlen (s : jsstring) : Z := Z.of_nat (length s).

Fixpoint str_eqb (a b : jsstring) : bool :=
  match a, b with
  | [], [] => true
  | x :: a', y :: b' => N.eqb x y && str_eqb a' b'
  | _, _ => false
  end.

(** [Math.max(0, Math.min(len, i))], the clamping [substring] applies to
    each of its arguments. *)
Definition clampIndex (len i : Z) : nat := Z.to_nat (Z.max 0 (Z.min len i)).

(** [s.substring(a, b)]: both arguments are clamped to [0, s.length] and
    swapped when the first is the larger. *)
Definition substring (s : jsstring) (a b : Z) : jsstring :=
  let a' := clampIndex (strlen s) a in
  let b' := clampIndex (strlen s) b in
  let from := Nat.min a' b' in
  let to := Nat.max a' b' in
  firstn (to - from) (skipn from s).

(** [s.substring(a)] *)
Definition substringFrom (s : jsstring) (a : Z) : jsstring :=
  substring s a (strlen s).

Fixpoint startsWith (needle hay : jsstring) : bool :=
  match needle, hay with
  | [], _ => true
  | x :: needle', y :: hay' => N.eqb x y && startsWith needle' hay'
  | _ :: _, [] => false
  end.

Fixpoint indexOfFrom (needle hay : jsstring) (pos : Z) : Z :=
  if startsWith needle hay then pos
  else match hay with
       | [] => -1
       | _ :: hay' => indexOfFrom needle hay' (pos + 1)
       end.

(** [hay.indexOf(needle)]: the first position, or -1. *)
Definition indexOf (hay needle : jsstring) : Z := indexOfFrom needle hay 0.

(** The code units matched by [\s] in a regular expression, which are also
    the ones removed by [trim()]: WhiteSpace and LineTerminator. *)
Definition isWhiteSpace (c : char) : bool :=
  ((9 <=? c) && (c <=? 13) || (c =? 32) || (c =? 160) || (c =? 5760)
   || (8192 <=? c) && (c <=? 8202) || (c =? 8232) || (c =? 8233)
   || (c =? 8239) || (c =? 8287) || (c =? 12288) || (c =? 65279))%N.

Definition SPACE : char := 32%N.

Fixpoint dropWhile {A} (p : A -> bool) (l : list A) : list A :=
  match l with
  | [] => []
  | x :: l' => if p x then dropWhile p l' else l
  end.

Definition trimStart (s : jsstring) : jsstring := dropWhile isWhiteSpace s.
Definition trimEnd (s : jsstring) : jsstring :=
  rev (dropWhile isWhiteSpace (rev s)).

(** [s.trim()] *)
Definition trim (s : jsstring) : jsstring := trimEnd (trimStart s).

(** [s.replace(/[...]/g, r)] for a class of single code units: every unit
    of the class is replaced by [r]. *)
Definition replaceClass (cls : char -> bool) (r : jsstring) (s : jsstring)
  : jsstring :=
  flat_map (fun c => if cls c then r else [c]) s.

(** [s.replace(/\s+/g, ' ')]: every maximal run of white space becomes
    one space.  [inRun] tells that the previous unit was white space. *)
Fixpoint collapseFrom (inRun : bool) (s : jsstring) : jsstring :=
  match s with
  | [] => []
  | c :: s' =>
      if isWhiteSpace c
      then (if inRun then collapseFrom true s'
            else SPACE :: collapseFrom true s')
      else c :: collapseFrom false s'
  end.

Definition collapseWhiteSpace (s : jsstring) : jsstring :=
  collapseFrom false s.

(** The strings [s.replace(/\s+/g, ' ')] leaves as they are: every white
    space unit is a space, and no two of them are adjacent.  [prevWs] tells
    that the previous unit was white space. *)
Fixpoint wsNormal (prevWs : bool) (s : jsstring) : bool :=
  match s with
  | [] => true
  | c :: s' =>
      if isWhiteSpace c
      then (c =? SPACE)%N && negb prevWs && wsNormal true s'
      else wsNormal false s'
  end.

(** [s.split(/\s+/)]: the pieces between the maximal runs of white space,
    with an empty first (last) piece when [s] starts (ends) with white
    space, and one empty piece for the empty string.  [cur] is the piece
    being read, reversed. *)
Fixpoint splitFrom (inSep : bool) (cur : jsstring) (s : jsstring)
  : list jsstring :=
  match s with
  | [] => [rev cur]
  | c :: s' =>
      if isWhiteSpace c
      then (if inSep then splitFrom true [] s'
            else rev cur :: splitFrom true [] s')
      else splitFrom false (c :: cur) s'
  end.

Definition splitWhiteSpace (s : jsstring) : list jsstring :=
  splitFrom false [] s.

(** [parts.join(sep)] *)
Fixpoint join (sep : jsstring) (parts : list jsstring) : jsstring :=
  match parts with
  | [] => []
  | [p] => p
  | p :: rest => p ++ sep ++ join sep rest
  end.

(** [arr.slice(i, j)] for [0 <= i <= j]. *)
Definition slice {A} (l : list A) (i j : nat) : list A :=
  firstn (j - i) (skipn i l).

(** ** Numbers used as sort keys *)

(** The numbers a comparator of this page can return: differences of
    lengths and of start indices, where an unmatched annotation has the
    start index [Infinity]. *)
Inductive number : Type :=
| Finite (z : Z)
| PosInfinity
| NegInfinity
| NaN.

(** [a - b] *)
Definition number_sub (a b : number) : number :=
  match a, b with
  | NaN, _ | _, NaN => NaN
  | Finite x, Finite y => Finite (x - y)
  | Finite _, PosInfinity => NegInfinity
  | Finite _, NegInfinity => PosInfinity
  | PosInfinity, PosInfinity => NaN
  | PosInfinity, _ => PosInfinity
  | NegInfinity, NegInfinity => NaN
  | NegInfinity, _ => NegInfinity
  end.

(** [v > 0]; false for [NaN], which the sort treats as [+0]. *)
Definition number_pos (v : number) : bool :=
  match v with
  | Finite z => 0 <? z
  | PosInfinity => true
  | _ => false
  end.

(** [Array.prototype.sort(comparefn)].  The sort of the language is
    stable; it is modelled by insertion from the right, where an element
    goes behind exactly the elements it compares greater than. *)
Fixpoint sortInsert {A} (cmp : A -> A -> number) (x : A) (l : list A)
  : list A :=
  match l with
  | [] => [x]
  | y :: l' =>
      if number_pos (cmp x y) then y :: sortInsert cmp x l'
      else x :: l
  end.

Fixpoint jsSort {A} (cmp : A -> A -> number) (l : list A) : list A :=
  match l with
  | [] => []
  | x :: l' => sortInsert cmp x (jsSort cmp l')
  end.

(** ** Completions: normal results and thrown exceptions *)

Inductive JSError : Type :=
| SyntaxError
| RangeError
| TypeError.

Inductive Completion (A : Type) : Type :=
| Normal (a : A)
| Throw (e : JSError).
Arguments Normal {A} a.
Arguments Throw {A} e.

Definition bind {A B} (c : Completion A) (k : A -> Completion B)
  : Completion B :=
  match c with
  | Normal a => k a
  | Throw e => Throw e
  end.

(** [try { body } catch (error) { handler }] *)
Definition tryCatch {A} (body : Completion A)
  (handler : JSError -> Completion A) : Completion A :=
  match body with
  | Normal a => Normal a
  | Throw e => handler e
  end.

Notation "x <- c ;; k" := (bind c (fun x => k))
  (at level 61, c at next level, right associativity).

(** [Map<string, V>]: an association list in insertion order.  Setting a
    key that is present replaces its value in place. *)
Fixpoint mapSet {V} (k : jsstring) (v : V) (m : list (jsstring * V))
  : list (jsstring * V) :=
  match m with
  | [] => [(k, v)]
  | (k', v') :: m' =>
      if str_eqb k' k then (k', v) :: m' else (k', v') :: mapSet k v m'
  end.

Fixpoint mapGet {V} (k : jsstring) (m : list (jsstring * V)) : option V :=
  match m with
  | [] => None
  | (k', v') :: m' => if str_eqb k' k then Some v' else mapGet k m'
  end.

Definition mapHas {V} (k : jsstring) (m : list (jsstring * V)) : bool :=
  match mapGet k m with Some _ => true | None => false end.

Definition mapValues {V} (m : list (jsstring * V)) : list V := map snd m.

(** [Set<string>.add] *)
Definition setAdd (k : jsstring) (s : list jsstring) : list jsstring :=
  if existsb (str_eqb k) s then s else s ++ [k].

(** An array with its indices, as [forEach] and [map] pass them. *)
Definition indexed {A} (l : list A) : list (nat * A) :=
  combine (seq 0 (length l)) l.

(** The decimal digits of an array index, as a template literal prints
    them. *)
Definition indexToString (i : nat) : jsstring :=
  lit (NilEmpty.string_of_uint (Nat.to_uint i)).

(** ** Data of the page *)

Record FeedbackPassage : Type := {
  referenced_student_text_quote : jsstring;
  feedback : jsstring;
  quote_from_marking_guidelines : option jsstring
}.

(** The result of [findBestSubstringMatch]. *)
Record MatchResult : Type := {
  startIndex : Z;
  endIndex : Z;
  matchedText : jsstring;
  similarity : Q
}.

(** The values of [passageMap] and of [matchedPassages]. *)
Record PassageInfo : Type := {
  info_passage : FeedbackPassage;
  info_id : jsstring
}.

Record MatchedPassage : Type := {
  matched_passage : FeedbackPassage;
  matched_id : jsstring;
  matched_startIndex : Z
}.

(** An entry of [annotationData]. *)
Module Annotation.
Record t : Type := {
  id : jsstring;
  feedback : jsstring;
  guideline : option jsstring;
  quote : jsstring;
  startIndex : number
}.
End Annotation.

(** The state of the placement loop: the variables it assigns. *)
Record PlaceState : Type := {
  processedHtml : jsstring;
  matchedPassages : list (jsstring * MatchedPassage);
  appliedAnnotations : list jsstring
}.

(** The characters of the class [[.*+?^${}()|[\]\\]]. *)
Definition isRegExpSpecial (c : char) : bool :=
  existsb (N.eqb c) (lit ".*+?^${}()|[]\").

Definition BACKSLASH : char := 92%N.

(** [word.replace(/[.*+?^${}()|[\]\\]/g, '\\$&')] *)
Definition escapeRegExp (word : jsstring) : jsstring :=
  flat_map (fun c => if isRegExpSpecial c then [BACKSLASH; c] else [c]) word.

(** The words in which nothing is escaped. *)
Definition isPlain (w : jsstring) : bool :=
  forallb (fun c => negb (isRegExpSpecial c)) w.

Section Page.

(** [String.prototype.toLowerCase] is a function of the platform from
    strings to strings.  It is a parameter: nothing is assumed of it, so
    what is proved of the page holds whatever the platform does with a
    capital sigma at the end of a word, with a cased letter written as a
    surrogate pair or with a letter whose lower-case form is longer. *)
Variable toLowerCase : jsstring -> jsstring.

(** [new RegExp(pattern, "i")] followed by [subject.match(regex)]:
    [regExpMatchIndex pattern subject] is the [index] of the match, [None]
    when [match] returns [null], and a thrown error when the pattern is
    refused or the match fails. *)
Variable regExpMatchIndex : jsstring -> jsstring -> Completion (option Z).

(** The state variable [activeAnnotationId] of the component. *)
Variable activeAnnotationId : option jsstring.

Definition isSingleCurlyQuote (c : char) : bool :=
  ((c =? 8216) || (c =? 8217))%N.
Definition isDoubleCurlyQuote (c : char) : bool :=
  ((c =? 8220) || (c =? 8221))%N.
Definition isDash (c : char) : bool := ((c =? 8211) || (c =? 8212))%N.
Definition isEllipsis (c : char) : bool := (c =? 8230)%N.

Definition normalizeText (text : jsstring) : jsstring :=
  match text with
  | [] => []
  | _ =>
      trim
        (collapseWhiteSpace
           (replaceClass isEllipsis (lit "...")
              (replaceClass isDash (lit "-")
                 (replaceClass isDoubleCurlyQuote [34%N]
                    (replaceClass isSingleCurlyQuote (lit "'")
                       (toLowerCase text))))))
  end.

(** *** The substring matcher *)

(** The three chunks of a normalized needle longer than 50. *)
Definition chunksOf (needleNormalized : jsstring) : list jsstring :=
  let len := strlen needleNormalized in
  [ substring needleNormalized 0 30;
    substring needleNormalized (len / 2 - 15) (len / 2 + 15);
    substringFrom needleNormalized (len - 30) ].

(** [chunks.map(...).filter(Boolean)]: the chunks found in the
    haystack, with their positions. *)
Definition chunkLocations (chunks : list jsstring)
  (haystackNormalized : jsstring) : list (jsstring * Z) :=
  filter (fun loc => 0 <=? snd loc)
    (map (fun chunk => (chunk, indexOf haystackNormalized chunk)) chunks).

Definition chunkStrategy (needle haystack : jsstring)
  (needleNormalized haystackNormalized : jsstring) : option MatchResult :=
  let chunks := chunksOf needleNormalized in
  let locations := chunkLocations chunks haystackNormalized in
  match jsSort (fun a b => Finite (snd a - snd b)) locations with
  | [] => None
  | firstChunk :: _ =>
      let len := strlen needleNormalized in
      let estimatedStartIndex :=
        if str_eqb (fst firstChunk) (nth 0 chunks [])
        then snd firstChunk
        else if str_eqb (fst firstChunk) (nth 1 chunks [])
        then Z.max 0 (snd firstChunk - len / 2 + 15)
        else Z.max 0 (snd firstChunk - len + 30) in
      let estimatedEndIndex :=
        Z.min (strlen haystack)
          (estimatedStartIndex + strlen needle + 20) in
      Some {| startIndex := estimatedStartIndex;
              endIndex := estimatedEndIndex;
              matchedText :=
                substring haystack estimatedStartIndex estimatedEndIndex;
              similarity := 9 # 10 |}
  end.

(** [needle.split(/\s+/).filter(w => w.length > 3)] *)
Definition wordsOf (needle : jsstring) : list jsstring :=
  filter (fun w => 3 <? strlen w) (splitWhiteSpace needle).

(** The body of the loop over the windows of three words: [Some] is
    the [return] of the loop, [None] goes on with the next window, also
    after a caught error. *)
Definition tryWordSequence (needle haystack haystackNormalized : jsstring)
  (window : list jsstring) : Completion (option MatchResult) :=
  let escapedWords := map escapeRegExp window in
  let wordSeq := join (lit "\s+") escapedWords in
  tryCatch
    (m <- regExpMatchIndex wordSeq haystackNormalized ;;
     match m with
     | Some index =>
         let startIdx := Z.max 0 (index - 20) in
         let endIdx :=
           Z.min (strlen haystackNormalized)
             (index + strlen needle + 20) in
         Normal (Some {| startIndex := startIdx;
                         endIndex := endIdx;
                         matchedText := substring haystack startIdx endIdx;
                         similarity := 17 # 20 |})
     | None => Normal None
     end)
    (fun error => Normal None).

Fixpoint wordSequenceLoop (needle haystack haystackNormalized : jsstring)
  (words : list jsstring) (indices : list nat)
  : Completion (option MatchResult) :=
  match indices with
  | [] => Normal None
  | i :: rest =>
      r <- tryWordSequence needle haystack haystackNormalized
             (slice words i (i + 3)) ;;
      match r with
      | Some m => Normal (Some m)
      | None =>
          wordSequenceLoop needle haystack haystackNormalized words rest
      end
  end.

(** [for (let i = 0; i <= words.length - 3; i++)], entered when
    [words.length >= 3]. *)
Definition wordSequenceStrategy (needle haystack haystackNormalized : jsstring)
  (words : list jsstring) : Completion (option MatchResult) :=
  if (3 <=? length words)%nat
  then wordSequenceLoop needle haystack haystackNormalized words
         (seq 0 (length words - 2))
  else Normal None.

(** [words.filter(w => w.length > 5).sort((a, b) => b.length - a.length)] *)
Definition significantWordsOf (words : list jsstring) : list jsstring :=
  jsSort (fun a b => Finite (strlen b - strlen a))
    (filter (fun w => 5 <? strlen w) words).

Definition tryWord (needle haystack haystackNormalized : jsstring)
  (word : jsstring) : Completion (option MatchResult) :=
  let escapedWord := escapeRegExp (toLowerCase word) in
  tryCatch
    (let idx := indexOf haystackNormalized escapedWord in
     if 0 <=? idx
     then
       let startIdx := Z.max 0 (idx - 10) in
       let endIdx :=
         Z.min (strlen haystackNormalized) (idx + strlen needle + 10) in
       Normal (Some {| startIndex := startIdx;
                       endIndex := endIdx;
                       matchedText := substring haystack startIdx endIdx;
                       similarity := 7 # 10 |})
     else Normal None)
    (fun error => Normal None).

Fixpoint singleWordStrategy (needle haystack haystackNormalized : jsstring)
  (significantWords : list jsstring) : Completion (option MatchResult) :=
  match significantWords with
  | [] => Normal None
  | word :: rest =>
      r <- tryWord needle haystack haystackNormalized word ;;
      match r with
      | Some m => Normal (Some m)
      | None =>
          singleWordStrategy needle haystack haystackNormalized rest
      end
  end.

(** The result of the fallback for a word found at [idx]. *)
Definition wordHit (needle haystack hn : jsstring) (idx : Z) : MatchResult :=
  {| startIndex := Z.max 0 (idx - 10);
     endIndex := Z.min (strlen hn) (idx + strlen needle + 10);
     matchedText :=
       substring haystack (Z.max 0 (idx - 10))
         (Z.min (strlen hn) (idx + strlen needle + 10));
     similarity := 7 # 10 |}.

(** The position at which the fallback looks for a word. *)
Definition wordIndex (hn word : jsstring) : Z :=
  indexOf hn (escapeRegExp (toLowerCase word)).

(** The chunk block of the function: entered for a normalized needle
    longer than 50, it returns when a chunk was found. *)
Definition chunkBlock (needle haystack : jsstring) : option MatchResult :=
  let needleNormalized := normalizeText needle in
  let haystackNormalized := normalizeText haystack in
  if 50 <? strlen needleNormalized
  then chunkStrategy needle haystack needleNormalized haystackNormalized
  else None.

Definition findBestSubstringMatch (needle haystack : jsstring)
  : Completion (option MatchResult) :=
  if strlen needle <? 10 then Normal None
  else
    let haystackNormalized := normalizeText haystack in
    match chunkBlock needle haystack with
    | Some m => Normal (Some m)
    | None =>
        let words := wordsOf needle in
        r <- wordSequenceStrategy needle haystack haystackNormalized words ;;
        match r with
        | Some m => Normal (Some m)
        | None =>
            singleWordStrategy needle haystack haystackNormalized
              (significantWordsOf words)
        end
    end.

(** *** Placement and ordering: the body of the [useMemo] callback *)

(** [passageMap]: every passage is entered under its quote, with the id
    made from its index. *)
Definition passageMap (passages : list FeedbackPassage)
  : list (jsstring * PassageInfo) :=
  fold_left
    (fun m ip =>
       let id := lit "annotation-" ++ indexToString (fst ip) in
       mapSet (referenced_student_text_quote (snd ip))
         {| info_passage := snd ip; info_id := id |} m)
    (indexed passages) [].

(** [[...feedback.passages].sort(...)]: longer quotes first. *)
Definition sortedPassages (passages : list FeedbackPassage)
  : list FeedbackPassage :=
  jsSort
    (fun a b =>
       Finite (strlen (referenced_student_text_quote b)
               - strlen (referenced_student_text_quote a)))
    passages.

Definition optionEqb (a : option jsstring) (b : jsstring) : bool :=
  match a with Some x => str_eqb x b | None => false end.

(** The opening tag of the highlighting [span]. *)
Definition spanOpen (id : jsstring) : jsstring :=
  lit "<span id=" ++ [34%N] ++ lit "text-" ++ id ++ [34%N]
  ++ lit " data-annotation-id=" ++ [34%N] ++ id ++ [34%N]
  ++ lit " class=" ++ [34%N]
  ++ lit "annotation-highlight cursor-pointer transition-colors duration-200 "
  ++ (if optionEqb activeAnnotationId id
      then lit "bg-yellow-200 dark:bg-yellow-700/50"
      else lit "bg-blue-100/50 dark:bg-blue-900/30 hover:bg-blue-200/70 dark:hover:bg-blue-800/50")
  ++ lit " rounded px-1" ++ [34%N] ++ lit ">".

Definition spanClose : jsstring := lit "</span>".

(** One iteration of the loop over [sortedPassages]. *)
Definition placeStep (originalHtml : jsstring)
  (pmap : list (jsstring * PassageInfo))
  (st : PlaceState) (passage : FeedbackPassage) : Completion PlaceState :=
  let quote := referenced_student_text_quote passage in
  match mapGet quote pmap with
  | None => Normal st
  | Some info =>
      m <- findBestSubstringMatch quote (processedHtml st) ;;
      match m with
      | Some mt =>
          if Qle_bool (7 # 10) (similarity mt)
          then
            let textToWrap :=
              substring (processedHtml st) (startIndex mt) (endIndex mt) in
            let startIdx := startIndex mt in
            let endIdx := endIndex mt in
            let before := substring (processedHtml st) 0 startIdx in
            let after := substringFrom (processedHtml st) endIdx in
            let highlightedText :=
              spanOpen (info_id info) ++ textToWrap ++ spanClose in
            originalMatch <- findBestSubstringMatch quote originalHtml ;;
            let stableStartIndex :=
              match originalMatch with
              | Some om => startIndex om
              | None => -1
              end in
            Normal
              {| processedHtml := before ++ highlightedText ++ after;
                 matchedPassages :=
                   mapSet quote
                     {| matched_passage := passage;
                        matched_id := info_id info;
                        matched_startIndex := stableStartIndex |}
                     (matchedPassages st);
                 appliedAnnotations :=
                   setAdd (info_id info) (appliedAnnotations st) |}
          else Normal st
      | None => Normal st
      end
  end.

Fixpoint placeLoop (originalHtml : jsstring)
  (pmap : list (jsstring * PassageInfo))
  (st : PlaceState) (passages : list FeedbackPassage)
  : Completion PlaceState :=
  match passages with
  | [] => Normal st
  | passage :: rest =>
      st' <- placeStep originalHtml pmap st passage ;;
      placeLoop originalHtml pmap st' rest
  end.

Definition matchedAnnotationsData
  (matched : list (jsstring * MatchedPassage)) : list Annotation.t :=
  map (fun info =>
         {| Annotation.id := matched_id info;
            Annotation.feedback := feedback (matched_passage info);
            Annotation.guideline :=
              quote_from_marking_guidelines (matched_passage info);
            Annotation.quote :=
              referenced_student_text_quote (matched_passage info);
            Annotation.startIndex := Finite (matched_startIndex info) |})
    (mapValues matched).

Definition unmatchedPassages (passages : list FeedbackPassage)
  (matched : list (jsstring * MatchedPassage)) : list FeedbackPassage :=
  filter (fun p => negb (mapHas (referenced_student_text_quote p) matched))
    passages.

Definition unmatchedAnnotation (ip : nat * FeedbackPassage) : Annotation.t :=
  {| Annotation.id := lit "unmatched-" ++ indexToString (fst ip);
     Annotation.feedback := feedback (snd ip);
     Annotation.guideline := quote_from_marking_guidelines (snd ip);
     Annotation.quote := referenced_student_text_quote (snd ip);
     Annotation.startIndex := PosInfinity |}.

Definition unmatchedAnnotationsData (passages : list FeedbackPassage)
  (matched : list (jsstring * MatchedPassage)) : list Annotation.t :=
  map unmatchedAnnotation (indexed (unmatchedPassages passages matched)).

Definition compareStartIndex (a b : Annotation.t) : number :=
  number_sub (Annotation.startIndex a) (Annotation.startIndex b).

Definition allAnnotations (passages : list FeedbackPassage)
  (matched : list (jsstring * MatchedPassage)) : list Annotation.t :=
  jsSort compareStartIndex
    (matchedAnnotationsData matched
     ++ unmatchedAnnotationsData passages matched).

Definition initialState (originalHtml : jsstring) : PlaceState :=
  {| processedHtml := originalHtml;
     matchedPassages := [];
     appliedAnnotations := [] |}.

(** The callback: the marked text [processedHtml] and [annotationData].
    Without proposal text or without passages the text is returned as
    it is, with no annotation. *)
Definition annotate (markdownProposal : jsstring)
  (passages : list FeedbackPassage)
  : Completion (jsstring * list Annotation.t) :=
  match markdownProposal, passages with
  | [], _ | _, [] => Normal (markdownProposal, [])
  | _, _ =>
      let originalHtml := markdownProposal in
      st <- placeLoop originalHtml (passageMap passages)
              (initialState originalHtml) (sortedPassages passages) ;;
      Normal (processedHtml st,
              allAnnotations passages (matchedPassages st))
  end.

(** [processedHtml.replace(/\n/g, '<br />')], what is handed to the
    renderer. *)
Definition renderedHtml (html : jsstring) : jsstring :=
  replaceClass (N.eqb 10) (lit "<br />") html.

End Page.

(** ** A case table and a regular-expression engine to run the model *)

(** The lower-casing functions that work unit by unit from a case table:
    [lowerUnit c] is the lower-case form of the code unit [c], which can
    be longer than one unit.  The platform's function is of this kind on
    the texts in which no unit is looked at together with its neighbours. *)
Definition tableLowerCase (lowerUnit : char -> jsstring) (s : jsstring)
  : jsstring :=
  flat_map lowerUnit s.


(** The case table of Basic Latin and Latin-1 Supplement: [A]-[Z] and the
    accented capitals (without the multiplication sign) move by 32, every
    other code unit is left as it is. *)
Definition lowerUnitLatin1 (c : char) : jsstring :=
  if ((65 <=? c) && (c <=? 90)
      || (192 <=? c) && (c <=? 222) && negb (c =? 215))%N
  then [(c + 32)%N]
  else [c].

Definition toLowerCaseLatin1 : jsstring -> jsstring :=
  tableLowerCase lowerUnitLatin1.

(** The patterns the page builds are escaped words joined by [\s+].  This
    engine reads that fragment of the pattern language: plain units,
    escaped syntax characters, [\s], and [+] behind one of them.  Any other
    syntax character is refused with a [SyntaxError]. *)
Module SmallRegExp.

Inductive atom : Type :=
| Lit (c : char)
| WhiteSpaceClass.

Inductive token : Type :=
| TAtom (a : atom)
| TPlus.

Inductive item : Type :=
| One (a : atom)
| OneOrMore (a : atom).

Fixpoint tokens (escaped : bool) (p : jsstring) : Completion (list token) :=
  match p with
  | [] => if escaped then Throw SyntaxError else Normal []
  | c :: p' =>
      if escaped then
        if (c =? 115)%N then
          rest <- tokens false p' ;; Normal (TAtom WhiteSpaceClass :: rest)
        else if isRegExpSpecial c then
          rest <- tokens false p' ;; Normal (TAtom (Lit c) :: rest)
        else Throw SyntaxError
      else if (c =? BACKSLASH)%N then tokens true p'
      else if (c =? 43)%N then
        rest <- tokens false p' ;; Normal (TPlus :: rest)
      else if isRegExpSpecial c then Throw SyntaxError
      else rest <- tokens false p' ;; Normal (TAtom (Lit c) :: rest)
  end.

Fixpoint quantify (ts : list token) : Completion (list item) :=
  match ts with
  | [] => Normal []
  | TPlus :: _ => Throw SyntaxError
  | TAtom a :: TPlus :: rest =>
      items <- quantify rest ;; Normal (OneOrMore a :: items)
  | TAtom a :: rest =>
      items <- quantify rest ;; Normal (One a :: items)
  end.

Definition compile (pattern : jsstring) : Completion (list item) :=
  ts <- tokens false pattern ;; quantify ts.

(** The canonical form of a code unit under the flag [i]: its upper
    case, here for Basic Latin and Latin-1 Supplement. *)
Definition canonicalize (c : char) : char :=
  if ((97 <=? c) && (c <=? 122)
      || (224 <=? c) && (c <=? 254) && negb (c =? 247))%N
  then (c - 32)%N
  else c.

Definition atomMatches (a : atom) (c : char) : bool :=
  match a with
  | Lit d => (canonicalize d =? canonicalize c)%N
  | WhiteSpaceClass => isWhiteSpace c
  end.

Fixpoint matchesHere (items : list item) (s : jsstring) : bool :=
  match items with
  | [] => true
  | One a :: items' =>
      match s with
      | c :: s' => atomMatches a c && matchesHere items' s'
      | [] => false
      end
  | OneOrMore a :: items' =>
      (fix many (s : jsstring) : bool :=
         match s with
         | c :: s' => atomMatches a c && (many s' || matchesHere items' s')
         | [] => false
         end) s
  end.

Fixpoint searchFrom (items : list item) (s : jsstring) (pos : Z)
  : option Z :=
  if matchesHere items s then Some pos
  else match s with
       | [] => None
       | _ :: s' => searchFrom items s' (pos + 1)
       end.

Definition matchIndex (pattern subject : jsstring)
  : Completion (option Z) :=
  items <- compile pattern ;; Normal (searchFrom items subject 0).

End SmallRegExp.

(** The page over this table and this engine. *)
Definition normalizeLatin1 : jsstring -> jsstring :=
  normalizeText toLowerCaseLatin1.

Definition findLatin1 : jsstring -> jsstring -> Completion (option MatchResult) :=
  findBestSubstringMatch toLowerCaseLatin1 SmallRegExp.matchIndex.

Definition annotateLatin1 :
  jsstring -> list FeedbackPassage -> Completion (jsstring * list Annotation.t) :=
  annotate toLowerCaseLatin1 SmallRegExp.matchIndex None.

Definition passage (quote comment : string) : FeedbackPassage :=
  {| referenced_student_text_quote := lit quote;
     feedback := lit comment;
     quote_from_marking_guidelines := None |}.

(** The text of the examples. *)
Definition riverbankText : jsstring :=
  lit "The quick brown fox jumps over the lazy dog near the riverbank.".

(** An engine that refuses every pattern. *)
Definition refusingEngine (pattern subject : jsstring)
  : Completion (option Z) :=
  Throw SyntaxError.

(** A text with curly quotes, a dash, an ellipsis and runs of white
    space: two spaces, He SAID, a tab, a left quote, Hi, a right quote, an
    em dash, an ellipsis, a line feed. *)
Definition curlyText : jsstring :=
  [32; 32; 72; 101; 32; 83; 65; 73; 68; 9; 8220; 72; 105; 8221; 8212;
   8230; 10]%N.

(** A quote of 60 code units, and a text of 40 ellipsis characters
    followed by the quote. *)
Definition longQuote : jsstring :=
  lit "the committee reviewed the proposal and found several issues".

Definition dottedText : jsstring := repeat 8230%N 40 ++ longQuote.

(** Ten ellipsis characters, a space and three words. *)
Definition dottedWords : jsstring :=
  repeat 8230%N 10 ++ lit " alpha beta gamma".

(** Two feedback items with the same quote. *)
Definition sameQuoteTwice : list FeedbackPassage :=
  [passage "the riverbank is" "first"; passage "the riverbank is" "second"].

(** A quote whose one long token ends with a period, as the text does. *)
Definition periodQuote : jsstring := lit "the riverbank. is".

(** A marked text of two lines, each ended by a line feed. *)
Definition twoLines : jsstring :=
  lit "first line" ++ [10%N] ++ lit "second line" ++ [10%N].

(** ** Notions used to state the properties *)

(** [l1] is [l2] with some elements left out. *)
Inductive Subsequence {A : Type} : list A -> list A -> Prop :=
| Subsequence_nil : forall l, Subsequence [] l
| Subsequence_skip : forall x l1 l2,
    Subsequence l1 l2 -> Subsequence l1 (x :: l2)
| Subsequence_take : forall x l1 l2,
    Subsequence l1 l2 -> Subsequence (x :: l1) (x :: l2).

(** The order of the sort keys: start indices, and [Infinity] above
    them. *)
Definition number_le (a b : number) : Prop :=
  match a, b with
  | Finite x, Finite y => x <= y
  | Finite _, PosInfinity => True
  | PosInfinity, PosInfinity => True
  | _, _ => False
  end.

Definition startIndexLe (a b : Annotation.t) : Prop :=
  number_le (Annotation.startIndex a) (Annotation.startIndex b).

(** The fields an annotation takes from its passage, and the same
    fields of a passage. *)
Definition recordOf (a : Annotation.t)
  : jsstring * jsstring * option jsstring :=
  (Annotation.quote a, Annotation.feedback a, Annotation.guideline a).

Definition passageRecord (p : FeedbackPassage)
  : jsstring * jsstring * option jsstring :=
  (referenced_student_text_quote p, feedback p,
   quote_from_marking_guidelines p).

(** After the passages [done] have been gone through, and when their
    quotes are distinct, [matchedPassages] holds, in this order, the
    passages of [done] that were matched. *)
Definition entered (done : list FeedbackPassage) (st : PlaceState) : Prop :=
  map matched_passage (mapValues (matchedPassages st))
  = filter (fun p => mapHas (referenced_student_text_quote p)
                       (matchedPassages st)) done
  /\ forall k, mapHas k (matchedPassages st) = true ->
               In k (map referenced_student_text_quote done).

(** What the loop keeps of the id of an entry: it is the one
    [passageMap] has under the quote, made from an index at which the list
    has this quote. *)
Definition idOfQuote (passages : list FeedbackPassage) (a : Annotation.t)
  : Prop :=
  exists i p,
    nth_error passages i = Some p
    /\ referenced_student_text_quote p = Annotation.quote a
    /\ Annotation.id a = lit "annotation-" ++ indexToString i
    /\ (forall j p', (i < j)%nat -> nth_error passages j = Some p' ->
          referenced_student_text_quote p' <> Annotation.quote a)
    /\ exists info,
         mapGet (Annotation.quote a) (passageMap passages) = Some info
         /\ Annotation.id a = info_id info.

(** The passage at index [i] is the only passage of the list with the
    quote [q]. *)
Definition soleQuoteAt (passages : list FeedbackPassage) (i : nat)
  (q : jsstring) : Prop :=
  forall j p',
    nth_error passages j = Some p' ->
    referenced_student_text_quote p' = q -> j = i.

(** The id of a matched annotation is made from the index of its
    passage: the quote of the annotation is the quote of a passage of the
    list, and when no other passage has this quote, the annotation is the
    record of this passage under the id [annotation-i] of its index. *)
Definition idFromIndex (passages : list FeedbackPassage) (a : Annotation.t)
  : Prop :=
  exists i p,
    nth_error passages i = Some p
    /\ referenced_student_text_quote p = Annotation.quote a
    /\ (soleQuoteAt passages i (Annotation.quote a) ->
        passageRecord p = recordOf a
        /\ Annotation.id a = lit "annotation-" ++ indexToString i).

(** The entries of [matchedPassages]: the keys are distinct, and each
    entry holds a passage with the quote that is its key, with the id
    [passageMap] has for this quote. *)
Definition matchedInvariant (pmap : list (jsstring * PassageInfo))
  (st : PlaceState) : Prop :=
  NoDup (map fst (matchedPassages st))
  /\ forall k v, In (k, v) (matchedPassages st) ->
       referenced_student_text_quote (matched_passage v) = k
       /\ exists info, mapGet k pmap = Some info /\ matched_id v = info_id info.

(** Every token of the quote that is longer than 5 and occurs, in lower
    case, in the normalized haystack gives a match. *)
Definition everyLongTokenMatches
  (toLowerCase : jsstring -> jsstring)
  (regExpMatchIndex : jsstring -> jsstring -> Completion (option Z))
  (needle haystack : jsstring) : Prop :=
  forall token,
    In token (splitWhiteSpace needle) ->
    5 < strlen token ->
    0 <= indexOf (normalizeText toLowerCase haystack)
           (toLowerCase token) ->
    exists m,
      findBestSubstringMatch toLowerCase regExpMatchIndex needle haystack
      = Normal (Some m).

(** Every annotation has the id made from the index of its passage in
    the list given to the callback. *)
Definition idsFromInputIndex (passages : list FeedbackPassage)
  (annotations : list Annotation.t) : Prop :=
  forall a, In a annotations ->
    exists i p,
      nth_error passages i = Some p
      /\ passageRecord p = recordOf a
      /\ Annotation.id a = lit "annotation-" ++ indexToString i.

(** The annotations are the records of the passages, one for each. *)
Definition oneRecordPerPassage (passages : list FeedbackPassage)
  (annotations : list Annotation.t) : Prop :=
  Permutation (map recordOf annotations) (map passageRecord passages).

(** A span within the haystack: [0 <= start < end <= haystack.length]. *)
Definition validSpan (haystack : jsstring) (m : MatchResult) : Prop :=
  0 <= startIndex m
  /\ startIndex m < endIndex m
  /\ endIndex m <= strlen haystack.

(** [html] is [doc] with opening and closing tags of spans put in, each
    pair around a stretch of the text. *)
Inductive TagsInserted (activeAnnotationId : option jsstring)
  (doc : jsstring) : jsstring -> Prop :=
| TagsInserted_none : TagsInserted activeAnnotationId doc doc
| TagsInserted_span : forall before wrapped after id,
    TagsInserted activeAnnotationId doc (before ++ wrapped ++ after) ->
    TagsInserted activeAnnotationId doc
      (before ++ (spanOpen activeAnnotationId id ++ wrapped ++ spanClose)
       ++ after).

(** What a regular-expression engine grants: the index of a match is a
    position of the subject. *)
Definition indexWithinSubject
  (regExpMatchIndex : jsstring -> jsstring -> Completion (option Z)) : Prop :=
  forall pattern subject i,
    regExpMatchIndex pattern subject = Normal (Some i) ->
    0 <= i <= strlen subject.

(** The start index kept for the ordering: the one of the match in the
    original text, or -1. *)
Definition stableStartIndexOf (originalMatch : option MatchResult) : Z :=
  match originalMatch with
  | Some om => startIndex om
  | None => -1
  end.

(** The start index of a matched annotation is the one its quote has in
    the original text. *)
Definition hasStableStartIndex
  (toLowerCase : jsstring -> jsstring)
  (regExpMatchIndex : jsstring -> jsstring -> Completion (option Z))
  (originalHtml : jsstring) (a : Annotation.t) : Prop :=
  exists originalMatch,
    findBestSubstringMatch toLowerCase regExpMatchIndex
      (Annotation.quote a) originalHtml = Normal originalMatch
    /\ Annotation.startIndex a = Finite (stableStartIndexOf originalMatch).

(** The same, of the entries of [matchedPassages]. *)
Definition stableInvariant
  (toLowerCase : jsstring -> jsstring)
  (regExpMatchIndex : jsstring -> jsstring -> Completion (option Z))
  (originalHtml : jsstring) (st : PlaceState) : Prop :=
  forall k v, In (k, v) (matchedPassages st) ->
    referenced_student_text_quote (matched_passage v) = k
    /\ exists originalMatch,
         findBestSubstringMatch toLowerCase regExpMatchIndex k originalHtml
         = Normal originalMatch
         /\ matched_startIndex v = stableStartIndexOf originalMatch.

(** The text with its curly quotes, dashes and ellipses written with the
    characters the normalizer writes for them. *)
Definition straighten (text : jsstring) : jsstring :=
  replaceClass isEllipsis (lit "...")
    (replaceClass isDash (lit "-")
       (replaceClass isDoubleCurlyQuote [34%N]
          (replaceClass isSingleCurlyQuote (lit "'") text))).

(** The glyphs the normalizer replaces. *)
Definition isReplacedGlyph (c : char) : bool :=
  isSingleCurlyQuote c || isDoubleCurlyQuote c || isDash c || isEllipsis c.

(** What a word strategy returns, for the index [i] of the hit and the
    margin [k] of the strategy. *)
Definition wordSpan (needle haystack hn : jsstring) (k : Z)
  (m : MatchResult) : Prop :=
  exists i,
    startIndex m = Z.max 0 (i - k)
    /\ endIndex m = Z.min (strlen hn) (i + strlen needle + k)
    /\ matchedText m = substring haystack (startIndex m) (endIndex m).

(** ** The paper search of the server: what is made of the answer of
    OpenAlex

    The route [open-alex] formats the works of the answer, keeps the ones
    with a title, a link and an abstract or a venue, orders them by
    citations and date, and returns the first four. *)
Module OpenAlex.

(** A work of the answer; a field that is missing or [null] is [None]. *)
Record Work : Type := {
  work_id : option jsstring;
  work_title : option jsstring;
  work_abstract : option jsstring;
  work_doi : option jsstring;
  work_oa_url : option jsstring;
  work_venue : option jsstring;
  work_publication_year : option Z;
  work_authorships : list (option jsstring * option jsstring);
  work_publication_date : option jsstring;
  work_cited_by_count : option Z
}.

Record Author : Type := {
  authorId : jsstring;
  name : jsstring
}.

Record Paper : Type := {
  paperId : jsstring;
  title : jsstring;
  abstract : jsstring;
  url : jsstring;
  venue : jsstring;
  year : option Z;
  authors : list Author;
  publicationDate : jsstring;
  citationCount : Z
}.

(** [value || fallback] for a string: a missing and an empty string are
    falsy. *)
Definition orString (value : option jsstring) (fallback : jsstring)
  : jsstring :=
  match value with
  | Some (c :: s) => c :: s
  | _ => fallback
  end.

(** [value || 0] and [value || null] for a number: a missing number and 0
    are falsy. *)
Definition orZero (value : option Z) : Z :=
  match value with Some z => z | None => 0 end.

Definition orNull (value : option Z) : option Z :=
  match value with
  | Some 0 => None
  | other => other
  end.

(** A string as a condition. *)
Definition truthy (s : jsstring) : bool :=
  match s with [] => false | _ => true end.

Definition formatAuthor (authorship : option jsstring * option jsstring)
  : Author :=
  {| authorId := orString (fst authorship) [];
     name := orString (snd authorship) (lit "Unknown Author") |}.

Definition formatPaper (paper : Work) : Paper :=
  {| paperId := orString (work_id paper) [];
     title := orString (work_title paper) (lit "Untitled Paper");
     abstract := orString (work_abstract paper) [];
     url := match work_doi paper with
            | Some (c :: doi) => lit "https://doi.org/" ++ c :: doi
            | _ => orString (work_oa_url paper) []
            end;
     venue := orString (work_venue paper) [];
     year := orNull (work_publication_year paper);
     authors := map formatAuthor (work_authorships paper);
     publicationDate := orString (work_publication_date paper) [];
     citationCount := orZero (work_cited_by_count paper) |}.

(** The condition of the filter. *)
Definition keepPaper (paper : Paper) : bool :=
  truthy (title paper) && truthy (url paper)
  && (truthy (abstract paper) || truthy (venue paper)).

Section Select.

(** [new Date(text).getTime()], which is [NaN] for a text that is not a
    date. *)
Variable dateTime : jsstring -> number.

Definition paperTime (paper : Paper) : number :=
  match publicationDate paper with
  | [] => Finite 0
  | date => dateTime date
  end.

(** The comparator of the sort: more citations first, then the later
    date. *)
Definition comparePapers (a b : Paper) : number :=
  let citeDiff := citationCount b - citationCount a in
  if negb (citeDiff =? 0) then Finite citeDiff
  else number_sub (paperTime b) (paperTime a).

(** The papers of the response, from [data.results]. *)
Definition selectPapers (results : list Work) : list Paper :=
  slice (jsSort comparePapers (filter keepPaper (map formatPaper results)))
    0 4.

End Select.

End OpenAlex.

(** A work with a DOI, a venue and [n] citations. *)
Definition sampleWork (n : Z) : OpenAlex.Work :=
  {| OpenAlex.work_id := Some (lit "W1");
     OpenAlex.work_title := None;
     OpenAlex.work_abstract := None;
     OpenAlex.work_doi := Some (lit "10.1000/x");
     OpenAlex.work_oa_url := None;
     OpenAlex.work_venue := Some (lit "Journal");
     OpenAlex.work_publication_year := Some 2024;
     OpenAlex.work_authorships := [(None, Some (lit "A. Author"))];
     OpenAlex.work_publication_date := Some (lit "2024-05-01");
     OpenAlex.work_cited_by_count := Some n |}.

(** ** The answer of the model: cutting the JSON text out

    The route [feedback] takes the text from the first opening brace to
    the last closing brace of the answer, and throws when there is no such
    stretch. *)

(** [hay.lastIndexOf(needle)]: the last position, or -1. *)
Fixpoint lastIndexOfFrom (needle hay : jsstring) (pos : Z) : Z :=
  match hay with
  | [] => if startsWith needle [] then pos else -1
  | _ :: hay' =>
      let later := lastIndexOfFrom needle hay' (pos + 1) in
      if 0 <=? later then later
      else if startsWith needle hay then pos else -1
  end.

Definition lastIndexOf (hay needle : jsstring) : Z :=
  lastIndexOfFrom needle hay 0.

Definition OPEN_BRACE : char := 123%N.
Definition CLOSE_BRACE : char := 125%N.

(** [jsonString], or [None] where the route throws its error. *)
Definition extractJsonString (responseText : jsstring) : option jsstring :=
  let startIndex := indexOf responseText [OPEN_BRACE] in
  let endIndex := lastIndexOf responseText [CLOSE_BRACE] in
  if (startIndex =? -1) || (endIndex =? -1) || (endIndex <? startIndex)
  then None
  else Some (substring responseText startIndex (endIndex + 1)).

(** * Properties *)

(** ** Basic facts about the string operations *)

Lemma str_eqb_eq (a b : jsstring) : str_eqb a b = true <-> a = b.
Proof.
  revert b; induction a as [|x a IH]; intros [|y b]; simpl;
    try (split; [discriminate | discriminate]); try tauto.
  rewrite andb_true_iff, N.eqb_eq, IH.
  split; [intros [-> ->]; reflexivity | intros [= -> ->]; auto].
Qed.

Lemma str_eqb_refl (a : jsstring) : str_eqb a a = true.
Proof. apply str_eqb_eq; reflexivity. Qed.

Lemma str_eqb_neq (a b : jsstring) : str_eqb a b = false <-> a <> b.
Proof.
  rewrite <- str_eqb_eq. destruct (str_eqb a b); split; congruence.
Qed.

Lemma strlen_nonneg (s : jsstring) : 0 <= strlen s.
Proof. unfold strlen; lia. Qed.

Lemma strlen_app (a b : jsstring) : strlen (a ++ b) = strlen a + strlen b.
Proof. unfold strlen; rewrite length_app; lia. Qed.

(** ** The matcher returns normally *)

Section MatcherFacts.

Variable toLowerCase : jsstring -> jsstring.
Variable regExpMatchIndex : jsstring -> jsstring -> Completion (option Z).

Local Abbreviation find := (findBestSubstringMatch toLowerCase regExpMatchIndex).
Local Abbreviation normalize := (normalizeText toLowerCase).

Lemma tryWordSequence_normal needle haystack hn window :
  exists r,
    tryWordSequence regExpMatchIndex needle haystack hn window = Normal r.
Proof.
  unfold tryWordSequence.
  destruct (regExpMatchIndex _ hn) as [[index|]|e]; simpl; eauto.
Qed.

Lemma tryWordSequence_caught needle haystack hn window e :
  regExpMatchIndex (join (lit "\s+") (map escapeRegExp window)) hn = Throw e ->
  tryWordSequence regExpMatchIndex needle haystack hn window = Normal None.
Proof. unfold tryWordSequence; intros ->; reflexivity. Qed.

Lemma wordSequenceLoop_normal needle haystack hn words indices :
  exists r,
    wordSequenceLoop regExpMatchIndex needle haystack hn words indices
    = Normal r.
Proof.
  induction indices as [|i rest IH]; simpl; eauto.
  destruct (tryWordSequence_normal needle haystack hn (slice words i (i + 3)))
    as [[m|] ->]; simpl; eauto.
Qed.

Lemma wordSequenceStrategy_normal needle haystack hn words :
  exists r,
    wordSequenceStrategy regExpMatchIndex needle haystack hn words = Normal r.
Proof.
  unfold wordSequenceStrategy.
  destruct (3 <=? length words)%nat; eauto using wordSequenceLoop_normal.
Qed.

Lemma tryWord_normal needle haystack hn word :
  exists r, tryWord toLowerCase needle haystack hn word = Normal r.
Proof.
  unfold tryWord.
  destruct (0 <=? indexOf hn _); simpl; eauto.
Qed.

Lemma singleWordStrategy_normal needle haystack hn significantWords :
  exists r,
    singleWordStrategy toLowerCase needle haystack hn significantWords
    = Normal r.
Proof.
  induction significantWords as [|word rest IH]; simpl; eauto.
  destruct (tryWord_normal needle haystack hn word) as [[m|] ->];
    simpl; eauto.
Qed.

Lemma findBestSubstringMatch_normal needle haystack :
  exists r, find needle haystack = Normal r.
Proof.
  unfold findBestSubstringMatch.
  destruct (strlen needle <? 10); eauto.
  destruct (chunkBlock toLowerCase needle haystack); eauto.
  destruct (wordSequenceStrategy_normal needle haystack
              (normalize haystack) (wordsOf needle)) as [[m|] ->];
    simpl; eauto using singleWordStrategy_normal.
Qed.

(** The three tiers: what a result of the matcher comes from. *)
Lemma findBestSubstringMatch_tiers needle haystack m :
  find needle haystack = Normal (Some m) ->
  10 <= strlen needle /\
  (chunkBlock toLowerCase needle haystack = Some m
   \/ (chunkBlock toLowerCase needle haystack = None
       /\ wordSequenceStrategy regExpMatchIndex needle haystack
            (normalize haystack) (wordsOf needle) = Normal (Some m))
   \/ (chunkBlock toLowerCase needle haystack = None
       /\ wordSequenceStrategy regExpMatchIndex needle haystack
            (normalize haystack) (wordsOf needle) = Normal None
       /\ singleWordStrategy toLowerCase needle haystack
            (normalize haystack) (significantWordsOf (wordsOf needle))
          = Normal (Some m))).
Proof.
  unfold findBestSubstringMatch.
  destruct (strlen needle <? 10) eqn:Hlen; [discriminate|].
  apply Z.ltb_ge in Hlen. intros H; split; [exact Hlen|].
  destruct (chunkBlock toLowerCase needle haystack) as [c|].
  - left; congruence.
  - right.
    destruct (wordSequenceStrategy_normal needle haystack
                (normalize haystack) (wordsOf needle)) as [[w|] Hw];
      rewrite Hw in H |- *; simpl in H.
    + left; split; congruence.
    + right; auto.
Qed.

Lemma chunkBlock_similarity needle haystack m :
  chunkBlock toLowerCase needle haystack = Some m -> similarity m = 9 # 10.
Proof.
  unfold chunkBlock, chunkStrategy.
  destruct (50 <? _); [|discriminate].
  destruct (jsSort _ _); [discriminate|].
  intros [= <-]; reflexivity.
Qed.

Lemma tryWordSequence_similarity needle haystack hn window m :
  tryWordSequence regExpMatchIndex needle haystack hn window
  = Normal (Some m) ->
  similarity m = 17 # 20.
Proof.
  unfold tryWordSequence.
  destruct (regExpMatchIndex _ hn) as [[index|]|e]; simpl;
    intros [= <-]; reflexivity.
Qed.

Lemma wordSequenceStrategy_similarity needle haystack hn words m :
  wordSequenceStrategy regExpMatchIndex needle haystack hn words
  = Normal (Some m) ->
  similarity m = 17 # 20.
Proof.
  unfold wordSequenceStrategy.
  destruct (3 <=? length words)%nat; [|discriminate].
  generalize (seq 0 (length words - 2)); intros indices.
  induction indices as [|i rest IH]; simpl; [discriminate|].
  destruct (tryWordSequence_normal needle haystack hn (slice words i (i + 3)))
    as [[w|] Hw]; rewrite Hw; simpl.
  - intros [= <-]. eapply tryWordSequence_similarity; eauto.
  - exact IH.
Qed.

Lemma tryWord_similarity needle haystack hn word m :
  tryWord toLowerCase needle haystack hn word = Normal (Some m) ->
  similarity m = 7 # 10.
Proof.
  unfold tryWord.
  destruct (0 <=? indexOf hn _); simpl; intros [= <-]; reflexivity.
Qed.

Lemma singleWordStrategy_similarity needle haystack hn significantWords m :
  singleWordStrategy toLowerCase needle haystack hn significantWords
  = Normal (Some m) ->
  similarity m = 7 # 10.
Proof.
  induction significantWords as [|word rest IH]; simpl; [discriminate|].
  destruct (tryWord_normal needle haystack hn word) as [[w|] Hw];
    rewrite Hw; simpl.
  - intros [= <-]. eapply tryWord_similarity; eauto.
  - exact IH.
Qed.

End MatcherFacts.

(** ** The sort *)

Section SortFacts.

Variable A : Type.
Variable cmp : A -> A -> number.

Lemma sortInsert_perm (x : A) (l : list A) :
  Permutation (sortInsert cmp x l) (x :: l).
Proof.
  induction l as [|y l IH]; simpl; [reflexivity|].
  destruct (number_pos (cmp x y)); [|reflexivity].
  rewrite IH. apply perm_swap.
Qed.

Lemma jsSort_perm (l : list A) : Permutation (jsSort cmp l) l.
Proof.
  induction l as [|x l IH]; simpl; [reflexivity|].
  rewrite sortInsert_perm. apply perm_skip, IH.
Qed.

Lemma jsSort_In (x : A) (l : list A) : In x (jsSort cmp l) <-> In x l.
Proof.
  split; apply Permutation_in;
    [apply jsSort_perm | apply Permutation_sym, jsSort_perm].
Qed.

Lemma jsSort_length (l : list A) : length (jsSort cmp l) = length l.
Proof. apply Permutation_length, jsSort_perm. Qed.

(** The result is ordered by any transitive order the comparator
    decides on the elements of the list. *)
Variable le : A -> A -> Prop.
Variable ok : A -> Prop.
Hypothesis le_trans : forall x y z, le x y -> le y z -> le x z.
Hypothesis cmp_not_pos : forall x y,
  ok x -> ok y -> number_pos (cmp x y) = false -> le x y.
Hypothesis cmp_pos : forall x y,
  ok x -> ok y -> number_pos (cmp x y) = true -> le y x.

Lemma sortInsert_sorted (x : A) (l : list A) :
  ok x -> Forall ok l ->
  StronglySorted le l -> StronglySorted le (sortInsert cmp x l).
Proof.
  intros Hx Hl Hs.
  induction Hs as [|y l Hs IH Hy]; simpl.
  - constructor; [constructor | constructor].
  - inversion Hl as [|? ? Hoky Hokl]; subst.
    destruct (number_pos (cmp x y)) eqn:Hc.
    + constructor; [apply IH; assumption|].
      apply (Permutation_Forall (Permutation_sym (sortInsert_perm x l))).
      constructor; [apply cmp_pos; assumption | assumption].
    + assert (Hxy : le x y) by (apply cmp_not_pos; assumption).
      constructor; [constructor; assumption|].
      constructor; [assumption|].
      eapply Forall_impl; [|exact Hy].
      intros z Hz; eapply le_trans; eassumption.
Qed.

Lemma jsSort_sorted (l : list A) :
  Forall ok l -> StronglySorted le (jsSort cmp l).
Proof.
  induction 1 as [|x l Hx Hl IH]; simpl; [constructor|].
  apply sortInsert_sorted; [assumption| |assumption].
  apply (Permutation_Forall (Permutation_sym (jsSort_perm l))); assumption.
Qed.

End SortFacts.

(** ** The single-word fallback *)

Lemma escapeRegExp_plain (w : jsstring) :
  isPlain w = true -> escapeRegExp w = w.
Proof.
  unfold isPlain, escapeRegExp.
  induction w as [|c w IH]; simpl; [reflexivity|].
  rewrite andb_true_iff, negb_true_iff. intros [-> Hw].
  simpl. f_equal. apply IH, Hw.
Qed.

Lemma significantWordsOf_perm (words : list jsstring) :
  Permutation (significantWordsOf words)
    (filter (fun w => 5 <? strlen w) words).
Proof. apply jsSort_perm. Qed.

Lemma significantWordsOf_sorted (words : list jsstring) :
  StronglySorted (fun a b => strlen b <= strlen a) (significantWordsOf words).
Proof.
  unfold significantWordsOf.
  apply jsSort_sorted with (ok := fun _ => True).
  - intros x y z; lia.
  - intros x y _ _; simpl. rewrite Z.ltb_ge. lia.
  - intros x y _ _; simpl. rewrite Z.ltb_lt. lia.
  - apply Forall_forall; auto.
Qed.

Lemma significantWordsOf_In (needle token : jsstring) :
  In token (splitWhiteSpace needle) -> 5 < strlen token ->
  In token (significantWordsOf (wordsOf needle)).
Proof.
  intros Hin Hlen.
  unfold significantWordsOf, wordsOf.
  apply jsSort_In, filter_In; split.
  - apply filter_In; split; [assumption | apply Z.ltb_lt; lia].
  - apply Z.ltb_lt; assumption.
Qed.

Section FallbackFacts.

Variable toLowerCase : jsstring -> jsstring.
Variable regExpMatchIndex : jsstring -> jsstring -> Completion (option Z).

Local Abbreviation wordIndex := (wordIndex toLowerCase).

Lemma tryWord_hit needle haystack hn word :
  0 <= wordIndex hn word ->
  tryWord toLowerCase needle haystack hn word
  = Normal (Some (wordHit needle haystack hn (wordIndex hn word))).
Proof.
  unfold tryWord, wordIndex, wordHit. intros H.
  apply Z.leb_le in H. rewrite H. reflexivity.
Qed.

Lemma tryWord_miss needle haystack hn word :
  wordIndex hn word < 0 ->
  tryWord toLowerCase needle haystack hn word = Normal None.
Proof.
  unfold tryWord, wordIndex. intros H.
  apply Z.leb_gt in H. rewrite H. reflexivity.
Qed.

Lemma singleWordStrategy_first_hit needle haystack hn before word rest :
  (forall w, In w before -> wordIndex hn w < 0) ->
  0 <= wordIndex hn word ->
  singleWordStrategy toLowerCase needle haystack hn (before ++ word :: rest)
  = Normal (Some (wordHit needle haystack hn (wordIndex hn word))).
Proof.
  intros Hbefore Hword.
  induction before as [|w before IH]; simpl.
  - rewrite tryWord_hit by assumption. reflexivity.
  - rewrite tryWord_miss by (apply Hbefore; left; reflexivity).
    simpl. apply IH. intros w' Hw'. apply Hbefore; right; assumption.
Qed.

Lemma singleWordStrategy_some needle haystack hn significantWords word :
  In word significantWords ->
  0 <= wordIndex hn word ->
  exists m,
    singleWordStrategy toLowerCase needle haystack hn significantWords
    = Normal (Some m).
Proof.
  intros Hin Hword.
  induction significantWords as [|w rest IH]; simpl; [destruct Hin|].
  destruct (Z_lt_le_dec (wordIndex hn w) 0) as [Hw|Hw].
  - rewrite tryWord_miss by assumption. simpl.
    destruct Hin as [->|Hin]; [lia | apply IH, Hin].
  - rewrite tryWord_hit by assumption. simpl. eauto.
Qed.

Lemma findBestSubstringMatch_long_token needle haystack token :
  10 <= strlen needle ->
  In token (splitWhiteSpace needle) ->
  5 < strlen token ->
  0 <= wordIndex (normalizeText toLowerCase haystack) token ->
  exists m,
    findBestSubstringMatch toLowerCase regExpMatchIndex needle haystack
    = Normal (Some m).
Proof.
  intros Hlen Hin Htok Hidx.
  unfold findBestSubstringMatch.
  apply Z.ltb_ge in Hlen. rewrite Hlen.
  destruct (chunkBlock toLowerCase needle haystack); [eauto|].
  destruct (wordSequenceStrategy_normal regExpMatchIndex needle haystack
              (normalizeText toLowerCase haystack) (wordsOf needle))
    as [[m|] ->]; simpl; [eauto|].
  eapply singleWordStrategy_some; [|exact Hidx].
  apply significantWordsOf_In; assumption.
Qed.

End FallbackFacts.

(** ** The normalizer *)

Lemma dropWhile_app_single {A} (p : A -> bool) (l : list A) (c : A) :
  dropWhile p (l ++ [c])
  = match dropWhile p l with
    | [] => if p c then [] else [c]
    | t => t ++ [c]
    end.
Proof.
  induction l as [|x l IH]; simpl; [reflexivity|].
  destruct (p x); [exact IH | reflexivity].
Qed.

Lemma trimEnd_cons (c : char) (s : jsstring) :
  trimEnd (c :: s)
  = match trimEnd s with
    | [] => if isWhiteSpace c then [] else [c]
    | t => c :: t
    end.
Proof.
  unfold trimEnd. simpl rev at 1. rewrite dropWhile_app_single.
  destruct (dropWhile isWhiteSpace (rev s)) as [|x t] eqn:E.
  - simpl. destruct (isWhiteSpace c); reflexivity.
  - assert (Hr : rev (x :: t) <> []).
    { intros E'. apply (f_equal (@length char)) in E'.
      rewrite length_rev in E'. discriminate. }
    rewrite rev_app_distr.
    change (rev [c] ++ rev (x :: t)) with (c :: rev (x :: t)).
    destruct (rev (x :: t)); [congruence | reflexivity].
Qed.

Lemma trimEnd_nil : trimEnd [] = [].
Proof. reflexivity. Qed.

Lemma trimEnd_idem (s : jsstring) : trimEnd (trimEnd s) = trimEnd s.
Proof.
  induction s as [|c s IH]; [reflexivity|].
  rewrite trimEnd_cons.
  destruct (trimEnd s) as [|x t] eqn:E.
  - destruct (isWhiteSpace c) eqn:Hc; [reflexivity|].
    rewrite trimEnd_cons, trimEnd_nil, Hc. reflexivity.
  - rewrite trimEnd_cons, IH. reflexivity.
Qed.

Lemma trimStart_head (s : jsstring) :
  trimStart s = []
  \/ exists c t, trimStart s = c :: t /\ isWhiteSpace c = false.
Proof.
  unfold trimStart.
  induction s as [|c s IH]; simpl; [left; reflexivity|].
  destruct (isWhiteSpace c) eqn:Hc; [exact IH|].
  right; exists c, s; auto.
Qed.

Lemma trimStart_trim (s : jsstring) : trimStart (trim s) = trim s.
Proof.
  unfold trim.
  destruct (trimStart_head s) as [->|(c & t & -> & Hc)]; [reflexivity|].
  rewrite trimEnd_cons.
  destruct (trimEnd t); rewrite ?Hc; unfold trimStart; simpl;
    rewrite Hc; reflexivity.
Qed.


Lemma wsNormal_collapseFrom (b : bool) (s : jsstring) :
  wsNormal b (collapseFrom b s) = true.
Proof.
  revert b; induction s as [|c s IH]; intros b; simpl; [reflexivity|].
  destruct (isWhiteSpace c) eqn:Hc.
  - destruct b; [apply IH|].
    simpl. rewrite IH. reflexivity.
  - simpl. rewrite Hc. apply IH.
Qed.

Lemma collapseFrom_wsNormal (b : bool) (s : jsstring) :
  wsNormal b s = true -> collapseFrom b s = s.
Proof.
  revert b; induction s as [|c s IH]; intros b; simpl; [reflexivity|].
  destruct (isWhiteSpace c) eqn:Hc.
  - rewrite !andb_true_iff, N.eqb_eq, negb_true_iff.
    intros [[-> ->] Hs]. f_equal. apply IH, Hs.
  - intros Hs. f_equal. apply IH, Hs.
Qed.

Lemma wsNormal_trimStart (b : bool) (s : jsstring) :
  wsNormal b s = true -> wsNormal false (trimStart s) = true.
Proof.
  unfold trimStart.
  revert b; induction s as [|c s IH]; intros b; simpl; [reflexivity|].
  destruct (isWhiteSpace c) eqn:Hc.
  - rewrite !andb_true_iff. intros [_ Hs]. eapply IH, Hs.
  - simpl. rewrite Hc. auto.
Qed.

Lemma wsNormal_trimEnd (b : bool) (s : jsstring) :
  wsNormal b s = true -> wsNormal b (trimEnd s) = true.
Proof.
  revert b; induction s as [|c s IH]; intros b; [reflexivity|].
  rewrite trimEnd_cons. simpl.
  destruct (isWhiteSpace c) eqn:Hc.
  - rewrite !andb_true_iff. intros [Hb Hs].
    apply IH in Hs.
    destruct (trimEnd s); [reflexivity|].
    cbn [wsNormal]. rewrite Hc, !andb_true_iff. auto.
  - intros Hs. apply IH in Hs.
    destruct (trimEnd s); cbn [wsNormal]; rewrite Hc; auto.
Qed.

Lemma replaceClass_Forall (P : char -> Prop) cls r (s : jsstring) :
  Forall P s ->
  Forall (fun c => P c /\ cls c = false) r ->
  Forall (fun c => P c /\ cls c = false) (replaceClass cls r s).
Proof.
  intros Hs Hr. unfold replaceClass.
  induction Hs as [|c s Hc Hs IH]; simpl; [constructor|].
  apply Forall_app; split; [|exact IH].
  destruct (cls c) eqn:E; [exact Hr|].
  constructor; [split; assumption | constructor].
Qed.

Lemma replaceClass_id cls r (s : jsstring) :
  Forall (fun c => cls c = false) s -> replaceClass cls r s = s.
Proof.
  unfold replaceClass.
  induction 1 as [|c s Hc Hs IH]; simpl; [reflexivity|].
  rewrite Hc, IH. reflexivity.
Qed.

Lemma collapseFrom_Forall (P : char -> Prop) (b : bool) (s : jsstring) :
  P SPACE -> Forall P s -> Forall P (collapseFrom b s).
Proof.
  intros Hsp Hs. revert b.
  induction Hs as [|c s Hc Hs IH]; intros b; simpl; [constructor|].
  destruct (isWhiteSpace c); [destruct b|]; auto.
Qed.

Lemma dropWhile_Forall {A} (P : A -> Prop) p (l : list A) :
  Forall P l -> Forall P (dropWhile p l).
Proof.
  induction 1 as [|x l Hx Hl IH]; simpl; [constructor|].
  destruct (p x); auto.
Qed.

Lemma trim_Forall (P : char -> Prop) (s : jsstring) :
  Forall P s -> Forall P (trim s).
Proof.
  intros H. unfold trim, trimEnd, trimStart.
  apply Forall_rev, dropWhile_Forall, Forall_rev, dropWhile_Forall, H.
Qed.

Section NormalizeFacts.

Variable lowerUnit : char -> jsstring.

(** What is used of the case table: a unit of a lower-case form is its
    own lower-case form, and so are the quote, the apostrophe, the hyphen,
    the period and the space. *)
Hypothesis lowerUnit_stable :
  forall c d, In d (lowerUnit c) -> lowerUnit d = [d].
Hypothesis lowerUnit_punctuation :
  Forall (fun c => lowerUnit c = [c]) [39%N; 34%N; 45%N; 46%N; 32%N].





End NormalizeFacts.

(** ** Maps in insertion order *)

Section MapFacts.

Variable V : Type.
Implicit Types (m : list (jsstring * V)) (k q : jsstring) (v : V).

Lemma mapGet_mapSet k v m q :
  mapGet q (mapSet k v m) = if str_eqb k q then Some v else mapGet q m.
Proof.
  induction m as [|[k' v'] m IH]; simpl; [reflexivity|].
  destruct (str_eqb k' k) eqn:Ek; simpl.
  - apply str_eqb_eq in Ek; subst k'.
    destruct (str_eqb k q); reflexivity.
  - rewrite IH.
    destruct (str_eqb k' q) eqn:Eq; [|reflexivity].
    apply str_eqb_eq in Eq; subst k'.
    destruct (str_eqb k q) eqn:Ekq; [|reflexivity].
    apply str_eqb_eq in Ekq; subst k. rewrite str_eqb_refl in Ek.
    discriminate.
Qed.

Lemma mapHas_mapSet k v m q :
  mapHas q (mapSet k v m) = str_eqb k q || mapHas q m.
Proof.
  unfold mapHas. rewrite mapGet_mapSet.
  destruct (str_eqb k q); reflexivity.
Qed.

Lemma mapGet_In k v m : mapGet k m = Some v -> In (k, v) m.
Proof.
  induction m as [|[k' v'] m IH]; simpl; [discriminate|].
  destruct (str_eqb k' k) eqn:E.
  - apply str_eqb_eq in E; subst k'. intros [= ->]. left; reflexivity.
  - intros H; right; apply IH, H.
Qed.

Lemma mapGet_None_keys k m : mapGet k m = None -> ~ In k (map fst m).
Proof.
  induction m as [|[k' v'] m IH]; simpl; [tauto|].
  destruct (str_eqb k' k) eqn:E; [discriminate|].
  apply str_eqb_neq in E. intros H [Hk|Hk]; [congruence | apply IH; assumption].
Qed.

Lemma mapHas_keys k m : mapHas k m = true <-> In k (map fst m).
Proof.
  unfold mapHas. split.
  - destruct (mapGet k m) eqn:E; [|discriminate].
    intros _. apply mapGet_In in E.
    apply in_map_iff. exists (k, v); auto.
  - intros H. destruct (mapGet k m) eqn:E; [reflexivity|].
    apply mapGet_None_keys in E. contradiction.
Qed.

Lemma mapSet_fresh k v m : mapGet k m = None -> mapSet k v m = m ++ [(k, v)].
Proof.
  induction m as [|[k' v'] m IH]; simpl; [reflexivity|].
  destruct (str_eqb k' k); [discriminate|].
  intros H; rewrite IH by assumption; reflexivity.
Qed.

Lemma mapSet_In k v m k' v' :
  In (k', v') (mapSet k v m) -> (k' = k /\ v' = v) \/ In (k', v') m.
Proof.
  induction m as [|[k0 v0] m IH]; simpl.
  - intros [[= <- <-]|[]]; auto.
  - destruct (str_eqb k0 k) eqn:E; simpl.
    + apply str_eqb_eq in E; subst k0.
      intros [[= <- <-]|H]; auto.
    + intros [H|H]; [auto|]. apply IH in H. tauto.
Qed.

Lemma mapSet_keys k v m :
  map fst (mapSet k v m)
  = if mapHas k m then map fst m else map fst m ++ [k].
Proof.
  unfold mapHas.
  induction m as [|[k0 v0] m IH]; simpl; [reflexivity|].
  destruct (str_eqb k0 k) eqn:E; simpl; [reflexivity|].
  rewrite IH. destruct (mapGet k m); reflexivity.
Qed.

Lemma mapSet_NoDup k v m :
  NoDup (map fst m) -> NoDup (map fst (mapSet k v m)).
Proof.
  intros H. rewrite mapSet_keys.
  destruct (mapHas k m) eqn:E; [assumption|].
  apply NoDup_app; [assumption | repeat constructor; simpl; tauto |].
  intros x Hx [<-|[]].
  apply mapHas_keys in Hx. congruence.
Qed.

Lemma In_mapGet k v m : NoDup (map fst m) -> In (k, v) m -> mapGet k m = Some v.
Proof.
  induction m as [|[k0 v0] m IH]; simpl; [tauto|].
  intros Hnd [[= -> ->]|Hin].
  - rewrite str_eqb_refl. reflexivity.
  - inversion_clear Hnd as [|? ? Hk0 Hm].
    destruct (str_eqb k0 k) eqn:E; [|apply IH; assumption].
    apply str_eqb_eq in E; subst k0. exfalso; apply Hk0.
    apply in_map_iff. exists (k, v); auto.
Qed.

End MapFacts.

(** ** The ids *)

Lemma lit_inj (a b : string) : lit a = lit b -> a = b.
Proof.
  unfold lit. intros H.
  rewrite <- (string_of_list_ascii_of_string a),
          <- (string_of_list_ascii_of_string b).
  f_equal.
  revert H. generalize (list_ascii_of_string b).
  induction (list_ascii_of_string a) as [|x l IH]; intros [|y l'];
    simpl; try discriminate; [reflexivity|].
  intros [= Hxy Hl]. f_equal; [|apply IH, Hl].
  rewrite <- (ascii_N_embedding x), <- (ascii_N_embedding y), Hxy.
  reflexivity.
Qed.

Lemma indexToString_inj (i j : nat) :
  indexToString i = indexToString j -> i = j.
Proof.
  unfold indexToString. intros H. apply lit_inj in H.
  apply (f_equal NilEmpty.uint_of_string) in H.
  rewrite !NilEmpty.usu in H. injection H as H.
  apply (f_equal Nat.of_uint) in H.
  rewrite !DecimalNat.Unsigned.of_to in H. exact H.
Qed.

Lemma combine_seq_snoc {A} (l : list A) (x : A) (s : nat) :
  combine (seq s (length (l ++ [x]))) (l ++ [x])
  = combine (seq s (length l)) l ++ [((s + length l)%nat, x)].
Proof.
  revert s; induction l as [|y l IH]; intros s; simpl.
  - rewrite Nat.add_0_r. reflexivity.
  - rewrite IH, Nat.add_succ_comm. reflexivity.
Qed.

Lemma indexed_snoc {A} (l : list A) (x : A) :
  indexed (l ++ [x]) = indexed l ++ [(length l, x)].
Proof. unfold indexed. exact (combine_seq_snoc l x 0). Qed.

Lemma indexed_snd {A} (l : list A) : map snd (indexed l) = l.
Proof.
  unfold indexed. generalize 0%nat.
  induction l as [|x l IH]; intros s; simpl; [reflexivity|].
  rewrite IH. reflexivity.
Qed.

Lemma indexed_fst {A} (l : list A) : map fst (indexed l) = seq 0 (length l).
Proof.
  unfold indexed. generalize 0%nat.
  induction l as [|x l IH]; intros s; simpl; [reflexivity|].
  rewrite IH. reflexivity.
Qed.

(** ** Subsequences *)

Section SubsequenceFacts.

Variable A : Type.
Implicit Types l : list A.

Lemma Subsequence_refl l : Subsequence l l.
Proof. induction l; constructor; assumption. Qed.

Lemma Subsequence_trans l1 l2 l3 :
  Subsequence l1 l2 -> Subsequence l2 l3 -> Subsequence l1 l3.
Proof.
  intros H12 H23. revert l1 H12.
  induction H23 as [l|x l2 l3 H IH|x l2 l3 H IH]; intros l1 H12.
  - inversion H12; constructor.
  - constructor. apply IH, H12.
  - inversion H12; subst; constructor; apply IH; assumption.
Qed.

Lemma Subsequence_app_l l p : Subsequence l (p ++ l).
Proof.
  induction p; simpl; [apply Subsequence_refl | constructor; assumption].
Qed.

Lemma Subsequence_app l1 l1' l2 l2' :
  Subsequence l1 l1' -> Subsequence l2 l2' ->
  Subsequence (l1 ++ l2) (l1' ++ l2').
Proof.
  intros H1 H2.
  induction H1 as [l|x l1 l1' H IH|x l1 l1' H IH]; simpl.
  - eapply Subsequence_trans; [exact H2 | apply Subsequence_app_l].
  - constructor; exact IH.
  - constructor; exact IH.
Qed.

Lemma Subsequence_app_r l s : Subsequence l (l ++ s).
Proof.
  rewrite <- (app_nil_r l) at 1.
  apply Subsequence_app; [apply Subsequence_refl | constructor].
Qed.

Lemma Subsequence_skipn n l : Subsequence (skipn n l) l.
Proof.
  rewrite <- (firstn_skipn n l) at 2. apply Subsequence_app_l.
Qed.

End SubsequenceFacts.

Lemma substring_prefix (h : jsstring) (b : Z) :
  substring h 0 b = firstn (clampIndex (strlen h) b) h.
Proof.
  unfold substring.
  assert (E : clampIndex (strlen h) 0 = 0%nat).
  { unfold clampIndex, strlen. lia. }
  rewrite E. simpl. rewrite Nat.sub_0_r. reflexivity.
Qed.

Lemma substringFrom_suffix (h : jsstring) (a : Z) :
  substringFrom h a = skipn (clampIndex (strlen h) a) h.
Proof.
  unfold substringFrom, substring.
  assert (E : clampIndex (strlen h) (strlen h) = length h).
  { unfold clampIndex, strlen. lia. }
  assert (L : (clampIndex (strlen h) a <= length h)%nat).
  { unfold clampIndex, strlen. lia. }
  rewrite E, Nat.min_l, Nat.max_r by assumption.
  apply firstn_all2. rewrite length_skipn. lia.
Qed.

(** Wrapping a span of the text inserts and never removes: the text is
    a subsequence of the wrapped text, for any two indices. *)
Lemma wrap_Subsequence (h opening closing : jsstring) (s e : Z) :
  Subsequence h
    (substring h 0 s ++ (opening ++ substring h s e ++ closing)
     ++ substringFrom h e).
Proof.
  rewrite substring_prefix, substringFrom_suffix.
  unfold substring.
  set (a := clampIndex (strlen h) s). set (b := clampIndex (strlen h) e).
  destruct (Nat.le_gt_cases a b) as [Hab|Hab].
  - rewrite Nat.min_l, Nat.max_r by assumption.
    rewrite <- (firstn_skipn a h) at 1.
    apply Subsequence_app; [apply Subsequence_refl|].
    rewrite <- (firstn_skipn (b - a) (skipn a h)) at 1.
    rewrite skipn_skipn. replace (b - a + a)%nat with b by lia.
    apply Subsequence_app; [|apply Subsequence_refl].
    eapply Subsequence_trans;
      [apply Subsequence_app_r | apply Subsequence_app_l].
  - rewrite <- (firstn_skipn a h) at 1.
    apply Subsequence_app; [apply Subsequence_refl|].
    eapply Subsequence_trans; [|apply Subsequence_app_l].
    replace a with ((a - b) + b)%nat at 1 by lia.
    rewrite <- skipn_skipn. apply Subsequence_skipn.
Qed.

(** With indices in order the wrapped text is the text with the two tags
    inserted. *)
Lemma wrap_ordered (h : jsstring) (s e : Z) :
  s <= e ->
  substring h 0 s ++ substring h s e ++ substringFrom h e = h.
Proof.
  intros Hse.
  rewrite substring_prefix, substringFrom_suffix.
  unfold substring.
  set (a := clampIndex (strlen h) s). set (b := clampIndex (strlen h) e).
  assert (Hab : (a <= b)%nat) by (unfold a, b, clampIndex; lia).
  rewrite Nat.min_l, Nat.max_r by assumption.
  rewrite <- (firstn_skipn a h) at 4. f_equal.
  rewrite <- (firstn_skipn (b - a) (skipn a h)) at 2.
  rewrite skipn_skipn. replace (b - a + a)%nat with b by lia.
  reflexivity.
Qed.

(** ** [passageMap] *)

Lemma passageMap_snoc (passages : list FeedbackPassage) (p : FeedbackPassage) :
  passageMap (passages ++ [p])
  = mapSet (referenced_student_text_quote p)
      {| info_passage := p;
         info_id := lit "annotation-" ++ indexToString (length passages) |}
      (passageMap passages).
Proof.
  unfold passageMap. rewrite indexed_snoc, fold_left_app. reflexivity.
Qed.

(** An entry of [passageMap] holds the last passage with its quote, and
    the id made from the index of that passage. *)
Lemma passageMap_get (passages : list FeedbackPassage) q info :
  mapGet q (passageMap passages) = Some info ->
  exists i,
    nth_error passages i = Some (info_passage info)
    /\ referenced_student_text_quote (info_passage info) = q
    /\ info_id info = lit "annotation-" ++ indexToString i
    /\ forall j p, (i < j)%nat -> nth_error passages j = Some p ->
                   referenced_student_text_quote p <> q.
Proof.
  revert q info.
  induction passages as [|p passages IH] using rev_ind; intros q info.
  - discriminate.
  - rewrite passageMap_snoc, mapGet_mapSet.
    destruct (str_eqb (referenced_student_text_quote p) q) eqn:E.
    + apply str_eqb_eq in E. intros [= <-]. simpl.
      exists (length passages). repeat split.
      * rewrite nth_error_app2, Nat.sub_diag by lia. reflexivity.
      * exact E.
      * intros j p' Hj Hn.
        assert (nth_error (passages ++ [p]) j <> None) by congruence.
        apply nth_error_Some in H. rewrite length_app in H. simpl in H. lia.
    + apply str_eqb_neq in E. intros H.
      destruct (IH _ _ H) as (i & Hi & Hq & Hid & Hlast).
      assert (Hlt : (i < length passages)%nat).
      { apply nth_error_Some. congruence. }
      exists i. repeat split; try assumption.
      * rewrite nth_error_app1 by assumption. exact Hi.
      * intros j p' Hj Hn.
        destruct (Nat.lt_ge_cases j (length passages)) as [Hjl|Hjl].
        -- rewrite nth_error_app1 in Hn by assumption. eapply Hlast; eauto.
        -- rewrite nth_error_app2 in Hn by assumption.
           destruct (j - length passages)%nat as [|n] eqn:En; simpl in Hn.
           ++ injection Hn as <-. exact E.
           ++ destruct n; discriminate.
Qed.

(** ** The placement loop *)

Section PlacementFacts.

Variable toLowerCase : jsstring -> jsstring.
Variable regExpMatchIndex : jsstring -> jsstring -> Completion (option Z).
Variable activeAnnotationId : option jsstring.

Local Abbreviation find := (findBestSubstringMatch toLowerCase regExpMatchIndex).
Local Abbreviation step := (placeStep toLowerCase regExpMatchIndex activeAnnotationId).
Local Abbreviation loop := (placeLoop toLowerCase regExpMatchIndex activeAnnotationId).

Lemma placeStep_normal originalHtml pmap st p :
  exists st', step originalHtml pmap st p = Normal st'.
Proof.
  unfold placeStep.
  destruct (mapGet _ pmap) as [info|]; [|eauto].
  destruct (findBestSubstringMatch_normal toLowerCase regExpMatchIndex
              (referenced_student_text_quote p) (processedHtml st))
    as [[mt|] ->]; simpl; [|eauto].
  destruct (Qle_bool _ _); [|eauto].
  destruct (findBestSubstringMatch_normal toLowerCase regExpMatchIndex
              (referenced_student_text_quote p) originalHtml)
    as [om ->]; simpl; eauto.
Qed.

Lemma placeLoop_normal originalHtml pmap passages st :
  exists st', loop originalHtml pmap st passages = Normal st'.
Proof.
  revert st; induction passages as [|p rest IH]; intros st; simpl; [eauto|].
  destruct (placeStep_normal originalHtml pmap st p) as [st1 ->]. simpl.
  apply IH.
Qed.

(** What one iteration does: nothing, or it wraps the span of a match
    and enters the passage under its quote. *)
Lemma placeStep_inv originalHtml pmap st p st' :
  step originalHtml pmap st p = Normal st' ->
  st' = st
  \/ exists info mt originalMatch,
       mapGet (referenced_student_text_quote p) pmap = Some info
       /\ find (referenced_student_text_quote p) (processedHtml st)
          = Normal (Some mt)
       /\ find (referenced_student_text_quote p) originalHtml
          = Normal originalMatch
       /\ processedHtml st'
          = substring (processedHtml st) 0 (startIndex mt)
            ++ (spanOpen activeAnnotationId (info_id info)
                ++ substring (processedHtml st) (startIndex mt) (endIndex mt)
                ++ spanClose)
            ++ substringFrom (processedHtml st) (endIndex mt)
       /\ matchedPassages st'
          = mapSet (referenced_student_text_quote p)
              {| matched_passage := p;
                 matched_id := info_id info;
                 matched_startIndex := stableStartIndexOf originalMatch |}
              (matchedPassages st).
Proof.
  unfold placeStep.
  destruct (mapGet _ pmap) as [info|]; [|intros [= <-]; auto].
  destruct (findBestSubstringMatch_normal toLowerCase regExpMatchIndex
              (referenced_student_text_quote p) (processedHtml st))
    as [[mt|] Hm]; rewrite Hm; simpl; [|intros [= <-]; auto].
  destruct (Qle_bool _ _); [|intros [= <-]; auto].
  destruct (findBestSubstringMatch_normal toLowerCase regExpMatchIndex
              (referenced_student_text_quote p) originalHtml)
    as [om Hom]; rewrite Hom; simpl.
  intros [= <-]. right. exists info, mt, om. simpl. auto.
Qed.

(** A property kept by every iteration holds after the loop. *)
Lemma placeLoop_invariant (I : PlaceState -> Prop) originalHtml pmap :
  (forall st p st', I st -> step originalHtml pmap st p = Normal st' -> I st') ->
  forall passages st st',
    I st -> loop originalHtml pmap st passages = Normal st' -> I st'.
Proof.
  intros Hstep passages.
  induction passages as [|p rest IH]; intros st st' HI; simpl.
  - intros [= <-]; exact HI.
  - destruct (placeStep_normal originalHtml pmap st p) as [st1 H1].
    rewrite H1; simpl. apply IH. eapply Hstep; eassumption.
Qed.

Lemma placeLoop_Subsequence originalHtml pmap passages st st' :
  loop originalHtml pmap st passages = Normal st' ->
  Subsequence (processedHtml st) (processedHtml st').
Proof.
  apply (placeLoop_invariant
           (fun s => Subsequence (processedHtml st) (processedHtml s))).
  - intros s p s' Hs Hp.
    apply placeStep_inv in Hp.
    destruct Hp as [->|(info & mt & om & _ & _ & _ & -> & _)]; [exact Hs|].
    eapply Subsequence_trans; [exact Hs | apply wrap_Subsequence].
  - apply Subsequence_refl.
Qed.

Lemma placeLoop_matchedInvariant originalHtml pmap passages st st' :
  matchedInvariant pmap st ->
  loop originalHtml pmap st passages = Normal st' ->
  matchedInvariant pmap st'.
Proof.
  apply placeLoop_invariant.
  intros s p s' [Hnd Hent] Hp.
  apply placeStep_inv in Hp.
  destruct Hp as [->|(info & mt & om & Hinfo & _ & _ & _ & Hm)];
    [split; assumption|].
  split; rewrite Hm.
  - apply mapSet_NoDup, Hnd.
  - intros k v Hin. apply mapSet_In in Hin.
    destruct Hin as [[-> ->]|Hin]; [simpl; eauto | apply Hent, Hin].
Qed.

Lemma placeLoop_stableInvariant originalHtml pmap passages st st' :
  stableInvariant toLowerCase regExpMatchIndex originalHtml st ->
  loop originalHtml pmap st passages = Normal st' ->
  stableInvariant toLowerCase regExpMatchIndex originalHtml st'.
Proof.
  apply placeLoop_invariant.
  intros s p s' Hent Hp.
  apply placeStep_inv in Hp.
  destruct Hp as [->|(info & mt & om & _ & _ & Hom & _ & Hm)]; [exact Hent|].
  intros k v Hin. rewrite Hm in Hin. apply mapSet_In in Hin.
  destruct Hin as [[-> ->]|Hin]; [simpl; eauto | apply Hent, Hin].
Qed.

Lemma matched_stable_startIndex originalHtml st :
  stableInvariant toLowerCase regExpMatchIndex originalHtml st ->
  Forall (hasStableStartIndex toLowerCase regExpMatchIndex originalHtml)
    (matchedAnnotationsData (matchedPassages st)).
Proof.
  intros Hent. unfold matchedAnnotationsData, mapValues.
  apply Forall_forall. intros a Ha.
  apply in_map_iff in Ha. destruct Ha as (v & <- & Hv).
  apply in_map_iff in Hv. destruct Hv as ([k v'] & Hsnd & Hin).
  simpl in Hsnd; subst v'.
  destruct (Hent _ _ Hin) as (Hq & om & Hom & Hidx).
  exists om. simpl. rewrite Hq, Hidx. auto.
Qed.

End PlacementFacts.

(** ** Ordering the annotations *)

Lemma number_le_trans (a b c : number) :
  number_le a b -> number_le b c -> number_le a c.
Proof. destruct a, b, c; simpl; try tauto; lia. Qed.

Lemma jsSort_unmatched (U : list Annotation.t) :
  Forall (fun a => Annotation.startIndex a = PosInfinity) U ->
  jsSort compareStartIndex U = U.
Proof.
  induction 1 as [|x U Hx HU IH]; simpl; [reflexivity|].
  rewrite IH. destruct HU as [|y U Hy HU]; simpl; [reflexivity|].
  unfold compareStartIndex. rewrite Hx, Hy. reflexivity.
Qed.

Lemma sortInsert_before_unmatched (x : Annotation.t) (S U : list Annotation.t) :
  (exists z, Annotation.startIndex x = Finite z) ->
  Forall (fun a => Annotation.startIndex a = PosInfinity) U ->
  sortInsert compareStartIndex x (S ++ U)
  = sortInsert compareStartIndex x S ++ U.
Proof.
  intros [z Hx] HU.
  induction S as [|y S IH]; simpl.
  - destruct HU as [|y U Hy HU]; simpl; [reflexivity|].
    unfold compareStartIndex. rewrite Hx, Hy. reflexivity.
  - destruct (number_pos (compareStartIndex x y)); [|reflexivity].
    rewrite IH. reflexivity.
Qed.

(** The unmatched annotations stay behind the matched ones, in the
    order they had. *)
Lemma jsSort_matched_unmatched (M U : list Annotation.t) :
  Forall (fun a => exists z, Annotation.startIndex a = Finite z) M ->
  Forall (fun a => Annotation.startIndex a = PosInfinity) U ->
  jsSort compareStartIndex (M ++ U) = jsSort compareStartIndex M ++ U.
Proof.
  intros HM HU.
  induction HM as [|x M Hx HM IH]; simpl; [apply jsSort_unmatched, HU|].
  rewrite IH. apply sortInsert_before_unmatched; assumption.
Qed.

Lemma jsSort_startIndex_sorted (l : list Annotation.t) :
  Forall (fun a => (exists z, Annotation.startIndex a = Finite z)
                   \/ Annotation.startIndex a = PosInfinity) l ->
  StronglySorted startIndexLe (jsSort compareStartIndex l).
Proof.
  apply jsSort_sorted; unfold startIndexLe, compareStartIndex.
  - intros x y z. apply number_le_trans.
  - intros x y [[a ->]| ->] [[b ->]| ->]; simpl;
      rewrite ?Z.ltb_ge; try discriminate; auto; lia.
  - intros x y [[a ->]| ->] [[b ->]| ->]; simpl;
      rewrite ?Z.ltb_lt; try discriminate; auto; lia.
Qed.

Lemma matchedAnnotationsData_finite matched :
  Forall (fun a => exists z, Annotation.startIndex a = Finite z)
    (matchedAnnotationsData matched).
Proof.
  unfold matchedAnnotationsData. apply Forall_forall. intros a Ha.
  apply in_map_iff in Ha. destruct Ha as (v & <- & _). simpl. eauto.
Qed.

Lemma unmatchedAnnotations_infinite (unmatched : list FeedbackPassage) :
  Forall (fun a => Annotation.startIndex a = PosInfinity)
    (map unmatchedAnnotation (indexed unmatched)).
Proof.
  apply Forall_forall. intros a Ha.
  apply in_map_iff in Ha. destruct Ha as (ip & <- & _). reflexivity.
Qed.

Lemma filter_Subsequence {A} (f : A -> bool) (l : list A) :
  Subsequence (filter f l) l.
Proof.
  induction l as [|x l IH]; simpl; [constructor|].
  destruct (f x); constructor; exact IH.
Qed.

Lemma filter_Permutation {A} (f : A -> bool) (l l' : list A) :
  Permutation l l' -> Permutation (filter f l) (filter f l').
Proof.
  induction 1 as [|x l l' H IH|x y l|l l' l'' H1 IH1 H2 IH2]; simpl.
  - constructor.
  - destruct (f x); [apply perm_skip|]; exact IH.
  - destruct (f x), (f y); try reflexivity. apply perm_swap.
  - etransitivity; eassumption.
Qed.

Lemma filter_split_Permutation {A} (f : A -> bool) (l : list A) :
  Permutation (filter f l ++ filter (fun x => negb (f x)) l) l.
Proof.
  induction l as [|x l IH]; simpl; [constructor|].
  destruct (f x); simpl.
  - apply perm_skip, IH.
  - symmetry. apply Permutation_cons_app. symmetry. exact IH.
Qed.

(** ** The callback *)

Section AnnotateFacts.

Variable toLowerCase : jsstring -> jsstring.
Variable regExpMatchIndex : jsstring -> jsstring -> Completion (option Z).
Variable activeAnnotationId : option jsstring.

Local Abbreviation loop := (placeLoop toLowerCase regExpMatchIndex activeAnnotationId).
Local Abbreviation run := (annotate toLowerCase regExpMatchIndex activeAnnotationId).

(** The callback returns, and what it returns. *)
Lemma annotate_cases markdownProposal passages :
  ((markdownProposal = [] \/ passages = [])
   /\ run markdownProposal passages = Normal (markdownProposal, []))
  \/ (markdownProposal <> [] /\ passages <> []
      /\ exists st,
           loop markdownProposal (passageMap passages)
             (initialState markdownProposal) (sortedPassages passages)
           = Normal st
           /\ run markdownProposal passages
              = Normal (processedHtml st,
                        jsSort compareStartIndex
                          (matchedAnnotationsData (matchedPassages st))
                        ++ map unmatchedAnnotation
                             (indexed
                                (unmatchedPassages passages
                                   (matchedPassages st))))).
Proof.
  unfold annotate.
  destruct markdownProposal as [|c doc]; [left; auto|].
  destruct passages as [|p passages]; [left; auto|].
  right. split; [discriminate|]. split; [discriminate|].
  destruct (placeLoop_normal toLowerCase regExpMatchIndex activeAnnotationId
              (c :: doc) (passageMap (p :: passages))
              (sortedPassages (p :: passages)) (initialState (c :: doc)))
    as [st Hst].
  exists st. split; [exact Hst|].
  rewrite Hst. simpl. unfold allAnnotations, unmatchedAnnotationsData.
  rewrite jsSort_matched_unmatched;
    [reflexivity
    | apply matchedAnnotationsData_finite
    | apply unmatchedAnnotations_infinite].
Qed.

End AnnotateFacts.

(** ** One record for each passage, when the quotes are distinct *)

Section DistinctQuotes.

Variable toLowerCase : jsstring -> jsstring.
Variable regExpMatchIndex : jsstring -> jsstring -> Completion (option Z).
Variable activeAnnotationId : option jsstring.

Local Abbreviation step := (placeStep toLowerCase regExpMatchIndex activeAnnotationId).
Local Abbreviation loop := (placeLoop toLowerCase regExpMatchIndex activeAnnotationId).

Lemma placeStep_entered originalHtml pmap done p st st' :
  ~ In (referenced_student_text_quote p)
      (map referenced_student_text_quote done) ->
  entered done st ->
  step originalHtml pmap st p = Normal st' ->
  entered (done ++ [p]) st'.
Proof.
  intros Hfresh [Hval Hkeys] Hstep.
  assert (Hnot : mapHas (referenced_student_text_quote p) (matchedPassages st)
                 = false).
  { destruct (mapHas _ _) eqn:E; [|reflexivity].
    exfalso. apply Hfresh, Hkeys, E. }
  apply placeStep_inv in Hstep.
  destruct Hstep as [->|(info & mt & om & _ & _ & _ & _ & Hm)].
  - split.
    + rewrite filter_app. simpl. rewrite Hnot, app_nil_r. exact Hval.
    + intros k Hk. rewrite map_app. apply in_or_app. left. apply Hkeys, Hk.
  - assert (Hget : mapGet (referenced_student_text_quote p) (matchedPassages st)
                   = None).
    { unfold mapHas in Hnot. destruct (mapGet _ _); [discriminate|reflexivity]. }
    split.
    + rewrite Hm, mapSet_fresh by exact Hget.
      unfold mapValues. rewrite !map_app. simpl.
      rewrite filter_app. simpl.
      rewrite <- mapSet_fresh with (v := {| matched_passage := p;
                                            matched_id := info_id info;
                                            matched_startIndex := stableStartIndexOf om |})
        by exact Hget.
      rewrite mapHas_mapSet, str_eqb_refl. simpl. f_equal.
      unfold mapValues in Hval. rewrite Hval.
      apply filter_ext_in. intros p' Hp'.
      rewrite mapHas_mapSet.
      destruct (str_eqb (referenced_student_text_quote p)
                  (referenced_student_text_quote p')) eqn:E; [|reflexivity].
      apply str_eqb_eq in E. exfalso. apply Hfresh. rewrite E.
      apply in_map, Hp'.
    + intros k. rewrite Hm, mapHas_mapSet, map_app, orb_true_iff.
      intros [E|Hk]; apply in_or_app.
      * apply str_eqb_eq in E. right. left. exact E.
      * left. apply Hkeys, Hk.
Qed.

Lemma placeLoop_entered originalHtml pmap rest :
  forall done st st',
    NoDup (map referenced_student_text_quote (done ++ rest)) ->
    entered done st ->
    loop originalHtml pmap st rest = Normal st' ->
    entered (done ++ rest) st'.
Proof.
  induction rest as [|p rest IH]; intros done st st' Hnd Hent; simpl.
  - intros [= <-]. rewrite app_nil_r. exact Hent.
  - destruct (placeStep_normal toLowerCase regExpMatchIndex activeAnnotationId
                originalHtml pmap st p) as [st1 H1].
    rewrite H1; simpl. intros Hloop.
    replace (done ++ p :: rest) with ((done ++ [p]) ++ rest) in *
      by (rewrite <- app_assoc; reflexivity).
    eapply IH; [exact Hnd| |exact Hloop].
    eapply placeStep_entered; [|exact Hent|exact H1].
    rewrite <- app_assoc, map_app in Hnd. simpl in Hnd.
    apply NoDup_remove_2 in Hnd.
    intros Hin. apply Hnd, in_or_app. left. exact Hin.
Qed.

End DistinctQuotes.

Lemma entered_records (passages sorted : list FeedbackPassage) st :
  Permutation sorted passages ->
  entered sorted st ->
  Permutation
    (map recordOf
       (matchedAnnotationsData (matchedPassages st)
        ++ map unmatchedAnnotation
             (indexed (unmatchedPassages passages (matchedPassages st)))))
    (map passageRecord passages).
Proof.
  intros Hperm [Hval _].
  rewrite map_app. unfold matchedAnnotationsData.
  rewrite !map_map.
  rewrite (map_ext _ (fun ip => passageRecord (snd ip)))
    by (intros [i p]; reflexivity).
  rewrite <- (map_map snd passageRecord), indexed_snd.
  rewrite (map_ext _ (fun v => passageRecord (matched_passage v)))
    by reflexivity.
  rewrite <- (map_map matched_passage passageRecord), Hval.
  rewrite <- map_app. apply Permutation_map.
  etransitivity; [|apply (filter_split_Permutation
       (fun p => mapHas (referenced_student_text_quote p) (matchedPassages st)))].
  apply Permutation_app_tail, filter_Permutation, Hperm.
Qed.

(** ** The entries of [matchedPassages] hold passages of the list *)

Section RecordsFacts.

Variable toLowerCase : jsstring -> jsstring.
Variable regExpMatchIndex : jsstring -> jsstring -> Completion (option Z).
Variable activeAnnotationId : option jsstring.

Lemma placeLoop_passages_from originalHtml pmap (all : list FeedbackPassage) :
  forall rest st st',
    (forall p, In p rest -> In p all) ->
    (forall k v, In (k, v) (matchedPassages st) ->
                 In (matched_passage v) all) ->
    placeLoop toLowerCase regExpMatchIndex activeAnnotationId
      originalHtml pmap st rest = Normal st' ->
    forall k v, In (k, v) (matchedPassages st') -> In (matched_passage v) all.
Proof.
  induction rest as [|p rest IH]; intros st st' Hrest Hst; simpl.
  - intros [= <-]. exact Hst.
  - destruct (placeStep_normal toLowerCase regExpMatchIndex activeAnnotationId
                originalHtml pmap st p) as [st1 H1].
    rewrite H1; simpl. apply IH.
    + intros q Hq. apply Hrest. right. exact Hq.
    + apply placeStep_inv in H1.
      destruct H1 as [->|(info & mt & om & _ & _ & _ & _ & Hm)]; [exact Hst|].
      intros k v Hin. rewrite Hm in Hin. apply mapSet_In in Hin.
      destruct Hin as [[_ ->]|Hin]; [|eapply Hst, Hin].
      simpl. apply Hrest. left. reflexivity.
Qed.

(** After the loop: the entries hold passages of the list under their
    quotes, one entry for a quote. *)
Lemma placeLoop_entries markdownProposal passages st :
  placeLoop toLowerCase regExpMatchIndex activeAnnotationId
    markdownProposal (passageMap passages)
    (initialState markdownProposal) (sortedPassages passages) = Normal st ->
  NoDup (map fst (matchedPassages st))
  /\ forall k v, In (k, v) (matchedPassages st) ->
       In (matched_passage v) passages
       /\ referenced_student_text_quote (matched_passage v) = k.
Proof.
  intros Hloop.
  assert (Hinv : matchedInvariant (passageMap passages) st).
  { eapply placeLoop_matchedInvariant; [|exact Hloop].
    split; simpl; [constructor | intros k v []]. }
  destruct Hinv as [Hnd Hent]. split; [exact Hnd|].
  intros k v Hin. split; [|apply (Hent _ _ Hin)].
  eapply placeLoop_passages_from; [| |exact Hloop|exact Hin].
  - intros p Hp. unfold sortedPassages in Hp. apply jsSort_In in Hp. exact Hp.
  - intros k' v' [].
Qed.

End RecordsFacts.

(** ** The ids are distinct *)

Lemma annotation_unmatched_differ (i k : nat) :
  lit "annotation-" ++ indexToString i <> lit "unmatched-" ++ indexToString k.
Proof. cbn. discriminate. Qed.

Lemma annotationId_inj (i j : nat) :
  lit "annotation-" ++ indexToString i = lit "annotation-" ++ indexToString j ->
  i = j.
Proof. intros H. apply app_inv_head in H. apply indexToString_inj, H. Qed.

Lemma unmatchedId_inj (i j : nat) :
  lit "unmatched-" ++ indexToString i = lit "unmatched-" ++ indexToString j ->
  i = j.
Proof. intros H. apply app_inv_head in H. apply indexToString_inj, H. Qed.

Lemma NoDup_map_by_key {K V B} (m : list (K * V)) (g : V -> B) :
  NoDup (map fst m) ->
  (forall k v k' v', In (k, v) m -> In (k', v') m -> g v = g v' -> k = k') ->
  NoDup (map (fun kv => g (snd kv)) m).
Proof.
  induction m as [|[k v] m IH]; simpl; intros Hnd Hinj; [constructor|].
  inversion_clear Hnd as [|? ? Hk Hm].
  constructor.
  - intros Hin. apply in_map_iff in Hin.
    destruct Hin as ([k' v'] & Hg & Hin). simpl in Hg.
    apply Hk. apply in_map_iff. exists (k', v'). split; [|exact Hin].
    simpl. symmetry. eapply Hinj; [left; reflexivity | right; exact Hin |].
    symmetry; exact Hg.
  - apply IH; [exact Hm|].
    intros k1 v1 k2 v2 H1 H2. apply Hinj; right; assumption.
Qed.

Lemma NoDup_map_inj {A B} (f : A -> B) (l : list A) :
  (forall x y, f x = f y -> x = y) -> NoDup l -> NoDup (map f l).
Proof.
  intros Hinj. induction 1 as [|x l Hx Hl IH]; simpl; constructor; [|exact IH].
  intros Hin. apply in_map_iff in Hin. destruct Hin as (y & Hy & Hin).
  apply Hinj in Hy. subst y. contradiction.
Qed.

Lemma matched_ids_of_quote passages st :
  matchedInvariant (passageMap passages) st ->
  Forall (fun a => idOfQuote passages a)
    (matchedAnnotationsData (matchedPassages st)).
Proof.
  intros [_ Hent]. unfold matchedAnnotationsData, mapValues.
  apply Forall_forall. intros a Ha.
  apply in_map_iff in Ha. destruct Ha as (v & <- & Hv).
  apply in_map_iff in Hv. destruct Hv as ([k v'] & Hsnd & Hin).
  simpl in Hsnd; subst v'.
  destruct (Hent _ _ Hin) as (Hq & info & Hinfo & Hid).
  destruct (passageMap_get _ _ Hinfo) as (i & Hi & Hqi & Hidi & Hlast).
  exists i, (info_passage info). simpl.
  rewrite Hq, Hid. split; [assumption|]. split; [assumption|].
  split; [assumption|]. split; [assumption|].
  exists info. split; [assumption | reflexivity].
Qed.

Lemma matched_ids_from_index passages st :
  matchedInvariant (passageMap passages) st ->
  (forall k v, In (k, v) (matchedPassages st) ->
               In (matched_passage v) passages) ->
  Forall (idFromIndex passages)
    (matchedAnnotationsData (matchedPassages st)).
Proof.
  intros [_ Hent] Hfrom. unfold matchedAnnotationsData, mapValues.
  apply Forall_forall. intros a Ha.
  apply in_map_iff in Ha. destruct Ha as (v & <- & Hv).
  apply in_map_iff in Hv. destruct Hv as ([k v'] & Hsnd & Hin).
  simpl in Hsnd; subst v'.
  destruct (Hent _ _ Hin) as (Hq & info & Hinfo & Hid).
  destruct (passageMap_get _ _ Hinfo) as (i & Hi & Hqi & Hidi & _).
  exists i, (info_passage info). simpl. rewrite Hq.
  split; [exact Hi|]. split; [exact Hqi|].
  intros Hsole.
  destruct (In_nth_error _ _ (Hfrom _ _ Hin)) as [j Hj].
  assert (j = i) by (eapply Hsole; [exact Hj | exact Hq]). subst j.
  assert (Hsame : matched_passage v = info_passage info) by congruence.
  split.
  - unfold passageRecord, recordOf. simpl. rewrite Hsame, Hqi. reflexivity.
  - rewrite Hid. exact Hidi.
Qed.

Lemma matched_ids_NoDup passages st :
  matchedInvariant (passageMap passages) st ->
  NoDup (map Annotation.id
           (matchedAnnotationsData (matchedPassages st))).
Proof.
  intros [Hnd Hent]. unfold matchedAnnotationsData, mapValues.
  rewrite !map_map. simpl.
  apply (NoDup_map_by_key (matchedPassages st) matched_id Hnd).
  intros k v k' v' Hin Hin' Hid.
  destruct (Hent _ _ Hin) as (Hq & info & Hinfo & Hv).
  destruct (Hent _ _ Hin') as (Hq' & info' & Hinfo' & Hv').
  destruct (passageMap_get _ _ Hinfo) as (i & Hi & Hqi & Hidi & _).
  destruct (passageMap_get _ _ Hinfo') as (i' & Hi' & Hqi' & Hidi' & _).
  assert (i = i').
  { apply annotationId_inj. congruence. }
  subst i'. congruence.
Qed.

Lemma unmatched_ids (unmatched : list FeedbackPassage) :
  map Annotation.id (map unmatchedAnnotation (indexed unmatched))
  = map (fun k => lit "unmatched-" ++ indexToString k)
      (seq 0 (length unmatched)).
Proof.
  rewrite map_map. unfold unmatchedAnnotation. simpl.
  rewrite <- indexed_fst, map_map. reflexivity.
Qed.

Lemma all_ids_NoDup passages st (unmatched : list FeedbackPassage) :
  matchedInvariant (passageMap passages) st ->
  NoDup (map Annotation.id
           (jsSort compareStartIndex
              (matchedAnnotationsData (matchedPassages st))
            ++ map unmatchedAnnotation (indexed unmatched))).
Proof.
  intros Hinv.
  apply (Permutation_NoDup
           (l := map Annotation.id
                   (matchedAnnotationsData (matchedPassages st)
                    ++ map unmatchedAnnotation (indexed unmatched)))).
  - apply Permutation_map, Permutation_app_tail, Permutation_sym,
      jsSort_perm.
  - rewrite map_app. apply NoDup_app.
    + apply matched_ids_NoDup with (passages := passages). exact Hinv.
    + rewrite unmatched_ids.
      apply NoDup_map_inj; [apply unmatchedId_inj | apply seq_NoDup].
    + intros x Hx Hx'.
      apply in_map_iff in Hx. destruct Hx as (a & <- & Ha).
      pose proof (matched_ids_of_quote passages Hinv) as Hall.
      rewrite Forall_forall in Hall.
      destruct (Hall _ Ha) as (i & p & _ & _ & Hid & _ & _).
      rewrite unmatched_ids in Hx'. apply in_map_iff in Hx'.
      destruct Hx' as (k & Hk & _).
      rewrite Hid in Hk. symmetry in Hk.
      exact (annotation_unmatched_differ i k Hk).
Qed.

(** ** Spans with indices in order *)

Lemma indexOfFrom_range (needle hay : jsstring) (pos : Z) :
  indexOfFrom needle hay pos = -1
  \/ pos <= indexOfFrom needle hay pos <= pos + strlen hay.
Proof.
  revert pos; induction hay as [|c hay IH]; intros pos; simpl.
  - destruct (startsWith needle []); [right|left; reflexivity].
    unfold strlen; simpl; lia.
  - destruct (startsWith needle (c :: hay)).
    + right. pose proof (strlen_nonneg (c :: hay)). lia.
    + destruct (IH (pos + 1)) as [H|H]; [left; exact H|right].
      unfold strlen in *. simpl length. lia.
Qed.

Lemma indexOf_range (hay needle : jsstring) :
  0 <= indexOf hay needle -> indexOf hay needle <= strlen hay.
Proof.
  unfold indexOf. destruct (indexOfFrom_range needle hay 0); lia.
Qed.

Lemma clampIndex_ordered (len s e : Z) :
  s <= e -> (clampIndex len s <= clampIndex len e)%nat.
Proof. unfold clampIndex. lia. Qed.

Lemma clampIndex_chunk (len s k : Z) :
  0 <= len -> 0 <= k ->
  (clampIndex len s <= clampIndex len (Z.min len (s + k)))%nat.
Proof. unfold clampIndex. lia. Qed.

Lemma wrap_clamped (h : jsstring) (s e : Z) :
  (clampIndex (strlen h) s <= clampIndex (strlen h) e)%nat ->
  substring h 0 s ++ substring h s e ++ substringFrom h e = h.
Proof.
  intros Hab.
  rewrite substring_prefix, substringFrom_suffix.
  unfold substring.
  set (a := clampIndex (strlen h) s) in *.
  set (b := clampIndex (strlen h) e) in *.
  rewrite Nat.min_l, Nat.max_r by assumption.
  rewrite <- (firstn_skipn a h) at 4. f_equal.
  rewrite <- (firstn_skipn (b - a) (skipn a h)) at 2.
  rewrite skipn_skipn. replace (b - a + a)%nat with b by lia.
  reflexivity.
Qed.

Section OrderedSpans.

Variable toLowerCase : jsstring -> jsstring.
Variable regExpMatchIndex : jsstring -> jsstring -> Completion (option Z).
Variable activeAnnotationId : option jsstring.
Hypothesis engine_range : indexWithinSubject regExpMatchIndex.

Lemma chunkBlock_ordered needle haystack m :
  chunkBlock toLowerCase needle haystack = Some m ->
  (clampIndex (strlen haystack) (startIndex m)
   <= clampIndex (strlen haystack) (endIndex m))%nat.
Proof.
  unfold chunkBlock, chunkStrategy.
  destruct (50 <? _); [|discriminate].
  destruct (jsSort _ _); [discriminate|].
  intros [= <-]. simpl.
  rewrite <- Z.add_assoc.
  apply clampIndex_chunk; [apply strlen_nonneg|].
  pose proof (strlen_nonneg needle). lia.
Qed.

Lemma tryWordSequence_ordered needle haystack hn window m :
  tryWordSequence regExpMatchIndex needle haystack hn window
  = Normal (Some m) ->
  startIndex m <= endIndex m.
Proof.
  unfold tryWordSequence.
  destruct (regExpMatchIndex _ hn) as [[index|]|e] eqn:E; simpl;
    intros [= <-]. simpl.
  apply engine_range in E. pose proof (strlen_nonneg needle). lia.
Qed.

Lemma wordSequenceStrategy_ordered needle haystack hn words m :
  wordSequenceStrategy regExpMatchIndex needle haystack hn words
  = Normal (Some m) ->
  startIndex m <= endIndex m.
Proof.
  unfold wordSequenceStrategy.
  destruct (3 <=? length words)%nat; [|discriminate].
  generalize (seq 0 (length words - 2)); intros indices.
  induction indices as [|i rest IH]; simpl; [discriminate|].
  destruct (tryWordSequence_normal regExpMatchIndex needle haystack hn
              (slice words i (i + 3))) as [[w|] Hw]; rewrite Hw; simpl.
  - intros [= <-]. eapply tryWordSequence_ordered; eauto.
  - exact IH.
Qed.

Lemma tryWord_ordered needle haystack hn word m :
  tryWord toLowerCase needle haystack hn word = Normal (Some m) ->
  startIndex m <= endIndex m.
Proof.
  unfold tryWord.
  destruct (0 <=? indexOf hn _) eqn:E; simpl; intros [= <-]. simpl.
  apply Z.leb_le in E. pose proof (indexOf_range _ _ E).
  pose proof (strlen_nonneg needle). lia.
Qed.

Lemma singleWordStrategy_ordered needle haystack hn significantWords m :
  singleWordStrategy toLowerCase needle haystack hn significantWords
  = Normal (Some m) ->
  startIndex m <= endIndex m.
Proof.
  induction significantWords as [|word rest IH]; simpl; [discriminate|].
  destruct (tryWord_normal toLowerCase needle haystack hn word) as [[w|] Hw];
    rewrite Hw; simpl.
  - intros [= <-]. eapply tryWord_ordered; eauto.
  - exact IH.
Qed.

(** The span of a match, cut with [substring], has its indices in
    order. *)
Lemma findBestSubstringMatch_ordered needle haystack m :
  findBestSubstringMatch toLowerCase regExpMatchIndex needle haystack
  = Normal (Some m) ->
  (clampIndex (strlen haystack) (startIndex m)
   <= clampIndex (strlen haystack) (endIndex m))%nat.
Proof.
  intros H. apply findBestSubstringMatch_tiers in H.
  destruct H as [_ [Hc|[[_ Hw]|(_ & _ & Hs)]]].
  - eapply chunkBlock_ordered; eauto.
  - apply clampIndex_ordered. eapply wordSequenceStrategy_ordered; eauto.
  - apply clampIndex_ordered. eapply singleWordStrategy_ordered; eauto.
Qed.

Lemma placeLoop_TagsInserted originalHtml pmap passages doc st st' :
  TagsInserted activeAnnotationId doc (processedHtml st) ->
  placeLoop toLowerCase regExpMatchIndex activeAnnotationId
    originalHtml pmap st passages = Normal st' ->
  TagsInserted activeAnnotationId doc (processedHtml st').
Proof.
  apply (@placeLoop_invariant toLowerCase regExpMatchIndex activeAnnotationId
           (fun s => TagsInserted activeAnnotationId doc (processedHtml s))
           originalHtml pmap).
  intros s p s' Hs Hp.
  apply placeStep_inv in Hp.
  destruct Hp as [->|(info & mt & om & _ & Hm & _ & -> & _)]; [exact Hs|].
  apply TagsInserted_span.
  rewrite wrap_clamped; [exact Hs|].
  eapply findBestSubstringMatch_ordered; eauto.
Qed.

End OrderedSpans.

Lemma searchFrom_range items (s : jsstring) (pos i : Z) :
  SmallRegExp.searchFrom items s pos = Some i -> pos <= i <= pos + strlen s.
Proof.
  revert pos; induction s as [|c s IH]; intros pos; simpl.
  - destruct (SmallRegExp.matchesHere items []); [|discriminate].
    intros [= <-]. unfold strlen; simpl; lia.
  - destruct (SmallRegExp.matchesHere items (c :: s)).
    + intros [= <-]. pose proof (strlen_nonneg (c :: s)). lia.
    + intros H. apply IH in H. unfold strlen in *. simpl length. lia.
Qed.

Lemma smallRegExp_indexWithinSubject :
  indexWithinSubject SmallRegExp.matchIndex.
Proof.
  intros pattern subject i. unfold SmallRegExp.matchIndex.
  destruct (SmallRegExp.compile pattern) as [items|e]; simpl; [|discriminate].
  intros [= H]. apply searchFrom_range in H. lia.
Qed.

(** ** The case table and the engine of the examples *)




(** ** Running the model *)

Example normalize_curly_text :
  normalizeLatin1 curlyText = lit "he said " ++ [34%N] ++ lit "hi" ++ [34%N]
                              ++ lit "-...".
Proof. vm_compute. reflexivity. Qed.

Example normalize_curly_quotes :
  normalizeLatin1 (lit "He said " ++ [8220%N] ++ lit "hello" ++ [8221%N])
  = normalizeLatin1 (lit "He said " ++ [34%N] ++ lit "hello" ++ [34%N]).
Proof. vm_compute. reflexivity. Qed.

Example split_on_white_space :
  splitWhiteSpace (lit " a  b ") = [[]; lit "a"; lit "b"; []].
Proof. vm_compute. reflexivity. Qed.

(** A chunk of the quote is found: similarity 0.9. *)
Example chunk_found :
  exists m,
    findLatin1 longQuote (lit "We note that " ++ longQuote ++ lit " in it.")
    = Normal (Some m)
    /\ startIndex m = 13 /\ endIndex m = 80 /\ similarity m = 9 # 10.
Proof. eexists. split; [vm_compute; reflexivity|]. simpl. auto. Qed.

(** Three words in sequence are found, whatever their case and the white
    space between them: similarity 0.85. *)
Example word_sequence_found :
  exists m,
    findLatin1 (lit "Found   SEVERAL issues") longQuote = Normal (Some m)
    /\ startIndex m = 20 /\ endIndex m = 60 /\ similarity m = 17 # 20.
Proof. eexists. split; [vm_compute; reflexivity|]. simpl. auto. Qed.

(** The words longer than 3 of this quote are not next to each other in
    the text, and none is longer than 5. *)
Example no_adjacent_long_words :
  findLatin1 (lit "quick brown fox jumps over the lazy dog") riverbankText
  = Normal None.
Proof. vm_compute. reflexivity. Qed.

Example no_word_of_the_quote :
  findLatin1 (lit "flying purple hippopotamus") riverbankText = Normal None.
Proof. vm_compute. reflexivity. Qed.

(** Words with parentheses and an asterisk are escaped; the engine
    accepts the pattern, the sequence is not in the text and the fallback
    finds the longest word. *)
Example metacharacters_escaped :
  SmallRegExp.matchIndex
    (join (lit "\s+") (map escapeRegExp [lit "lazy"; lit "(dog)"; lit "near*"]))
    (normalizeLatin1 riverbankText) = Normal None
  /\ exists m,
       findLatin1 (lit "lazy (dog) near* riverbank") riverbankText
       = Normal (Some m)
       /\ similarity m = 7 # 10.
Proof.
  split; [vm_compute; reflexivity|].
  eexists. split; [vm_compute; reflexivity|]. reflexivity.
Qed.

Example unescaped_pattern_refused :
  SmallRegExp.matchIndex (lit "a(b") (lit "xxa(b") = Throw SyntaxError.
Proof. vm_compute. reflexivity. Qed.

Example no_passages :
  annotateLatin1 riverbankText [] = Normal (riverbankText, []).
Proof. reflexivity. Qed.

(** * The claims *)

(** C6.  A quote of fewer than 10 code units is not searched for: the
    matcher returns [null], whatever the haystack is. *)
Theorem short_quote_none
  (toLowerCase : jsstring -> jsstring)
  (regExpMatchIndex : jsstring -> jsstring -> Completion (option Z))
  (needle haystack : jsstring) :
  strlen needle < 10 ->
  findBestSubstringMatch toLowerCase regExpMatchIndex needle haystack
  = Normal None.
Proof.
  intros H. unfold findBestSubstringMatch.
  apply Z.ltb_lt in H. rewrite H. reflexivity.
Qed.

Lemma short_quote_none_witness :
  findLatin1 (lit "fox") riverbankText = Normal None.
Proof.
  apply (short_quote_none toLowerCaseLatin1 SmallRegExp.matchIndex
           (lit "fox") riverbankText).
  vm_compute. reflexivity.
Defined.

(** C7.  A result of the matcher comes from one of the three strategies,
    tried in this order, and its similarity is the constant of that
    strategy: 0.9 for a chunk, 0.85 for a sequence of three words, 0.7 for
    a single word.  No other value is returned. *)
Theorem confidence_by_strategy
  (toLowerCase : jsstring -> jsstring)
  (regExpMatchIndex : jsstring -> jsstring -> Completion (option Z))
  (needle haystack : jsstring) (m : MatchResult) :
  findBestSubstringMatch toLowerCase regExpMatchIndex needle haystack
  = Normal (Some m) ->
  (chunkBlock toLowerCase needle haystack = Some m
   /\ similarity m = 9 # 10)
  \/ (chunkBlock toLowerCase needle haystack = None
      /\ wordSequenceStrategy regExpMatchIndex needle haystack
           (normalizeText toLowerCase haystack) (wordsOf needle)
         = Normal (Some m)
      /\ similarity m = 17 # 20)
  \/ (chunkBlock toLowerCase needle haystack = None
      /\ wordSequenceStrategy regExpMatchIndex needle haystack
           (normalizeText toLowerCase haystack) (wordsOf needle)
         = Normal None
      /\ singleWordStrategy toLowerCase needle haystack
           (normalizeText toLowerCase haystack)
           (significantWordsOf (wordsOf needle))
         = Normal (Some m)
      /\ similarity m = 7 # 10).
Proof.
  intros H. apply findBestSubstringMatch_tiers in H.
  destruct H as [_ [Hc|[[Hc Hw]|(Hc & Hw & Hs)]]].
  - left. split; [exact Hc | eapply chunkBlock_similarity; eauto].
  - right; left. repeat split; try assumption.
    eapply wordSequenceStrategy_similarity; eauto.
  - right; right. repeat split; try assumption.
    eapply singleWordStrategy_similarity; eauto.
Qed.

Lemma confidence_by_strategy_witness :
  findLatin1 (lit "the riverbank is") riverbankText
  = Normal (Some (wordHit (lit "the riverbank is") riverbankText
                    (normalizeLatin1 riverbankText) 53))
  /\ similarity (wordHit (lit "the riverbank is") riverbankText
                   (normalizeLatin1 riverbankText) 53) = 7 # 10.
Proof.
  assert (H : findLatin1 (lit "the riverbank is") riverbankText
              = Normal (Some (wordHit (lit "the riverbank is") riverbankText
                                (normalizeLatin1 riverbankText) 53)))
    by (vm_compute; reflexivity).
  split; [exact H|].
  destruct (confidence_by_strategy toLowerCaseLatin1 SmallRegExp.matchIndex
              (lit "the riverbank is") riverbankText H)
    as [[Hc _]|[(_ & Hw & _)|(_ & _ & _ & Hs)]].
  - vm_compute in Hc. discriminate Hc.
  - vm_compute in Hw. discriminate Hw.
  - exact Hs.
Defined.

(** C8.  The matcher never throws.  An error of the regular-expression
    engine on one window of three words is caught: that window counts as
    not found and the windows behind it are tried; when the engine fails
    on every window the word-sequence strategy finds nothing and the
    fallback is tried, and no word of the fallback throws either. *)
Theorem matcher_never_throws
  (toLowerCase : jsstring -> jsstring)
  (regExpMatchIndex : jsstring -> jsstring -> Completion (option Z))
  (needle haystack : jsstring) :
  (exists r,
     findBestSubstringMatch toLowerCase regExpMatchIndex needle haystack
     = Normal r)
  /\ (forall hn words i rest e,
        regExpMatchIndex
          (join (lit "\s+") (map escapeRegExp (slice words i (i + 3)))) hn
        = Throw e ->
        wordSequenceLoop regExpMatchIndex needle haystack hn words (i :: rest)
        = wordSequenceLoop regExpMatchIndex needle haystack hn words rest)
  /\ (forall hn words,
        (forall pattern, exists e, regExpMatchIndex pattern hn = Throw e) ->
        wordSequenceStrategy regExpMatchIndex needle haystack hn words
        = Normal None)
  /\ (forall hn word,
        exists r, tryWord toLowerCase needle haystack hn word = Normal r).
Proof.
  split; [apply findBestSubstringMatch_normal|].
  split; [|split].
  - intros hn words i rest e He. simpl.
    rewrite (tryWordSequence_caught _ _ _ _ _ He). reflexivity.
  - intros hn words Hall. unfold wordSequenceStrategy.
    destruct (3 <=? length words)%nat; [|reflexivity].
    generalize (seq 0 (length words - 2)). intros indices.
    induction indices as [|i rest IH]; simpl; [reflexivity|].
    destruct (Hall (join (lit "\s+")
                      (map escapeRegExp (slice words i (i + 3))))) as [e He].
    rewrite (tryWordSequence_caught _ _ _ _ _ He). exact IH.
  - intros hn word. apply tryWord_normal.
Qed.

Lemma matcher_never_throws_witness :
  wordSequenceStrategy refusingEngine (lit "the lazy riverbank near rivers")
    riverbankText (normalizeLatin1 riverbankText)
    (wordsOf (lit "the lazy riverbank near rivers"))
  = Normal None
  /\ exists r,
       findBestSubstringMatch toLowerCaseLatin1 refusingEngine
         (lit "the lazy riverbank near rivers") riverbankText
       = Normal r.
Proof.
  destruct (matcher_never_throws toLowerCaseLatin1 refusingEngine
              (lit "the lazy riverbank near rivers") riverbankText)
    as (Hnormal & _ & Hall & _).
  split; [|exact Hnormal].
  apply Hall. intros pattern. exists SyntaxError. reflexivity.
Defined.



(** C5.  The fallback does not look for the token but for the token with
    a backslash put before every character that is special in a regular
    expression, and it looks for it with [indexOf], for which no character
    is special.  The quote [the riverbank. is] has 17 code units and one
    token longer than 5, [riverbank.]; no chunk and no word sequence is
    found for it, so the fallback is reached.  The token occurs in the
    normalized text, at 53, but what is looked for is the token with a
    backslash before its period, and the matcher returns [null]. *)
Theorem fallback_misses_escaped_token :
  let hn := normalizeLatin1 riverbankText in
  strlen periodQuote = 17
  /\ chunkBlock toLowerCaseLatin1 periodQuote riverbankText = None
  /\ wordSequenceStrategy SmallRegExp.matchIndex periodQuote riverbankText
       hn (wordsOf periodQuote)
     = Normal None
  /\ significantWordsOf (wordsOf periodQuote) = [lit "riverbank."]
  /\ indexOf hn (toLowerCaseLatin1 (lit "riverbank.")) = 53
  /\ escapeRegExp (toLowerCaseLatin1 (lit "riverbank."))
     = lit "riverbank" ++ [BACKSLASH] ++ lit "."
  /\ wordIndex toLowerCaseLatin1 hn (lit "riverbank.") = -1
  /\ findLatin1 periodQuote riverbankText = Normal None
  /\ ~ everyLongTokenMatches toLowerCaseLatin1 SmallRegExp.matchIndex
        periodQuote riverbankText.
Proof.
  intros hn.
  repeat (split; [vm_compute; reflexivity|]).
  intros H.
  destruct (H (lit "riverbank.")) as [m Hm].
  - vm_compute. auto.
  - vm_compute. reflexivity.
  - vm_compute. discriminate.
  - vm_compute in Hm. discriminate Hm.
Qed.

(** C4.  The indices are positions in the normalized haystack, which is
    longer than the haystack when this one has ellipsis characters.  For
    the quote found behind 40 of them the chunk strategy returns the start
    120 and the end 100, the length of the haystack: the start is not
    below the end and not within the haystack. *)
Theorem span_out_of_bounds_on_ellipsis :
  exists m,
    findLatin1 longQuote dottedText = Normal (Some m)
    /\ startIndex m = 120 /\ endIndex m = 100
    /\ strlen dottedText = 100
    /\ ~ validSpan dottedText m.
Proof.
  eexists. split; [vm_compute; reflexivity|].
  unfold validSpan. simpl. repeat split; try reflexivity. lia.
Qed.

(** The word-sequence strategy clamps the end to the length of the
    normalized haystack: the end 47 is behind the haystack, of length 27. *)
Example span_end_behind_haystack :
  exists m,
    findLatin1 (lit "alpha beta gamma") dottedWords = Normal (Some m)
    /\ startIndex m = 11 /\ endIndex m = 47 /\ strlen dottedWords = 27.
Proof. eexists. split; [vm_compute; reflexivity|]. simpl. auto. Qed.

(** C1.  The callback returns the annotations in ascending order of
    their start index: first the matched ones, whose start index is the
    one their quote has in the original text (or -1), then the unmatched
    ones, whose start index is [Infinity]; the unmatched ones are the
    records of passages of the list, in the order of the list. *)
Theorem annotations_sorted_unmatched_last
  (toLowerCase : jsstring -> jsstring)
  (regExpMatchIndex : jsstring -> jsstring -> Completion (option Z))
  (activeAnnotationId : option jsstring)
  (markdownProposal : jsstring) (passages : list FeedbackPassage) :
  exists html matchedPart unmatched,
    annotate toLowerCase regExpMatchIndex activeAnnotationId
      markdownProposal passages
    = Normal (html, matchedPart ++ map unmatchedAnnotation (indexed unmatched))
    /\ StronglySorted startIndexLe
         (matchedPart ++ map unmatchedAnnotation (indexed unmatched))
    /\ Forall (hasStableStartIndex toLowerCase regExpMatchIndex markdownProposal)
         matchedPart
    /\ Forall (fun a => Annotation.startIndex a = PosInfinity)
         (map unmatchedAnnotation (indexed unmatched))
    /\ Subsequence unmatched passages
    /\ map recordOf (map unmatchedAnnotation (indexed unmatched))
       = map passageRecord unmatched.
Proof.
  assert (Hrec : forall unmatched : list FeedbackPassage,
             map recordOf (map unmatchedAnnotation (indexed unmatched))
             = map passageRecord unmatched).
  { intros unmatched. rewrite map_map.
    rewrite <- (indexed_snd unmatched) at 2. rewrite map_map.
    apply map_ext. intros [i p]. reflexivity. }
  destruct (annotate_cases toLowerCase regExpMatchIndex activeAnnotationId
              markdownProposal passages)
    as [[_ Hrun]|(_ & _ & st & Hloop & Hrun)].
  - exists markdownProposal, [], []. simpl.
    repeat split; try constructor. exact Hrun.
  - exists (processedHtml st),
      (jsSort compareStartIndex (matchedAnnotationsData (matchedPassages st))),
      (unmatchedPassages passages (matchedPassages st)).
    split; [exact Hrun|].
    pose proof (matchedAnnotationsData_finite (matchedPassages st)) as HM.
    pose proof (unmatchedAnnotations_infinite
                  (unmatchedPassages passages (matchedPassages st))) as HU.
    split; [|split; [|split; [|split]]].
    + rewrite <- jsSort_matched_unmatched by assumption.
      apply jsSort_startIndex_sorted, Forall_app; split.
      * eapply Forall_impl; [|exact HM]. simpl; auto.
      * eapply Forall_impl; [|exact HU]. simpl; auto.
    + apply (Permutation_Forall (Permutation_sym (jsSort_perm _ _))).
      apply matched_stable_startIndex.
      eapply placeLoop_stableInvariant; [|exact Hloop].
      intros k v [].
    + exact HU.
    + apply filter_Subsequence.
    + apply Hrec.
Qed.

(** C2, as stated: every annotation has the id [annotation-i] of the index
    [i] of its passage.  With a matched passage at index 0 and a short
    quote at index 1, the annotation of the second has the id
    [unmatched-0]. *)
Lemma ids_not_all_from_input_index :
  exists html annotations,
    annotateLatin1 riverbankText
      [passage "the riverbank is" "first"; passage "fox" "second"]
    = Normal (html, annotations)
    /\ ~ idsFromInputIndex
           [passage "the riverbank is" "first"; passage "fox" "second"]
           annotations.
Proof.
  eexists. eexists. split; [vm_compute; reflexivity|].
  intros H.
  destruct (H {| Annotation.id := lit "unmatched-0";
                 Annotation.feedback := lit "second";
                 Annotation.guideline := None;
                 Annotation.quote := lit "fox";
                 Annotation.startIndex := PosInfinity |})
    as (i & p & _ & _ & Hid).
  - right. left. reflexivity.
  - simpl in Hid. change (lit "unmatched-0") with
      (lit "unmatched-" ++ indexToString 0) in Hid.
    symmetry in Hid. exact (annotation_unmatched_differ i 0 Hid).
Qed.

(** C2, amended.  A matched annotation has the quote of a passage of the
    list, and when this passage is the only one with the quote, the
    annotation is its record under the id [annotation-i] made from its
    index [i] in the list, whatever the order in which the passages were
    gone through; the unmatched annotations have the ids [unmatched-k],
    where [k] counts the unmatched passages in the order of the list; no
    two annotations have the same id. *)
Theorem annotation_ids
  (toLowerCase : jsstring -> jsstring)
  (regExpMatchIndex : jsstring -> jsstring -> Completion (option Z))
  (activeAnnotationId : option jsstring)
  (markdownProposal : jsstring) (passages : list FeedbackPassage) :
  exists html matchedPart unmatched,
    annotate toLowerCase regExpMatchIndex activeAnnotationId
      markdownProposal passages
    = Normal (html, matchedPart ++ map unmatchedAnnotation (indexed unmatched))
    /\ Forall (idFromIndex passages) matchedPart
    /\ map Annotation.id (map unmatchedAnnotation (indexed unmatched))
       = map (fun k => lit "unmatched-" ++ indexToString k)
           (seq 0 (length unmatched))
    /\ Subsequence unmatched passages
    /\ NoDup (map Annotation.id
                (matchedPart ++ map unmatchedAnnotation (indexed unmatched))).
Proof.
  destruct (annotate_cases toLowerCase regExpMatchIndex activeAnnotationId
              markdownProposal passages)
    as [[_ Hrun]|(_ & _ & st & Hloop & Hrun)].
  - exists markdownProposal, [], []. simpl.
    repeat split; try constructor. exact Hrun.
  - assert (Hinv : matchedInvariant (passageMap passages) st).
    { eapply placeLoop_matchedInvariant; [|exact Hloop].
      split; simpl; [constructor | intros k v []]. }
    exists (processedHtml st),
      (jsSort compareStartIndex (matchedAnnotationsData (matchedPassages st))),
      (unmatchedPassages passages (matchedPassages st)).
    split; [exact Hrun|].
    split; [|split; [|split]].
    + apply (Permutation_Forall (Permutation_sym (jsSort_perm _ _))).
      apply matched_ids_from_index; [exact Hinv|].
      intros k v Hin.
      eapply (placeLoop_entries toLowerCase regExpMatchIndex
                activeAnnotationId markdownProposal passages Hloop), Hin.
    + apply unmatched_ids.
    + apply filter_Subsequence.
    + apply all_ids_NoDup with (passages := passages). exact Hinv.
Qed.

(** The longer quote is gone through first, and its id is the one of
    its place in the list. *)
Example ids_of_a_run :
  exists html annotations,
    annotateLatin1 riverbankText
      [passage "fox" "first"; passage "the riverbank is" "second"]
    = Normal (html, annotations)
    /\ map Annotation.id annotations
       = [lit "annotation-1"; lit "unmatched-0"].
Proof. eexists. eexists. split; [vm_compute; reflexivity|]. reflexivity. Qed.

(** C3.  The maps of the callback are keyed by the quote.  Two items
    with the same quote are both found in the text and entered under one
    key, the second over the first: one annotation is returned for the two
    items, the record of the second, and the comment of the first is lost.
    In a text where the span put around the first hit breaks the word,
    the second item is not found any more: the one annotation is the
    record of the first item under the id made for the second.  In a text
    in which the quote is not found the two items are kept, each with its
    record, as the list of the unmatched items is made from the list of
    the items and not from a map. *)
Theorem duplicate_quotes_drop_a_record :
  (exists html a,
     annotateLatin1 riverbankText sameQuoteTwice = Normal (html, [a])
     /\ recordOf a = passageRecord (passage "the riverbank is" "second")
     /\ Annotation.id a = lit "annotation-1"
     /\ ~ oneRecordPerPassage sameQuoteTwice [a])
  /\ (exists html a,
        annotateLatin1 (lit "     riverbank") sameQuoteTwice
        = Normal (html, [a])
        /\ recordOf a = passageRecord (passage "the riverbank is" "first")
        /\ Annotation.id a = lit "annotation-1")
  /\ (exists html annotations,
        annotateLatin1 (lit "nothing of the kind") sameQuoteTwice
        = Normal (html, annotations)
        /\ oneRecordPerPassage sameQuoteTwice annotations
        /\ length annotations = 2%nat).
Proof.
  split; [|split].
  - eexists. eexists. split; [vm_compute; reflexivity|].
    split; [reflexivity|]. split; [reflexivity|].
    intros H. apply Permutation_length in H. discriminate H.
  - eexists. eexists. split; [vm_compute; reflexivity|].
    split; reflexivity.
  - eexists. eexists. split; [vm_compute; reflexivity|].
    split; [|reflexivity].
    unfold oneRecordPerPassage. vm_compute. apply Permutation_refl.
Qed.

(** C9.  Placement only inserts.  The text given to the callback is a
    subsequence of the marked text it returns, for any engine; and with an
    engine whose match index is a position of its subject, the marked text
    is the text with the tags of spans put in, each pair around a stretch
    of the working text, so that no code unit of the text is removed or
    moved. *)
Theorem marked_text_keeps_document
  (toLowerCase : jsstring -> jsstring)
  (regExpMatchIndex : jsstring -> jsstring -> Completion (option Z))
  (activeAnnotationId : option jsstring)
  (markdownProposal : jsstring) (passages : list FeedbackPassage) :
  exists html annotations,
    annotate toLowerCase regExpMatchIndex activeAnnotationId
      markdownProposal passages
    = Normal (html, annotations)
    /\ Subsequence markdownProposal html
    /\ (indexWithinSubject regExpMatchIndex ->
        TagsInserted activeAnnotationId markdownProposal html).
Proof.
  destruct (annotate_cases toLowerCase regExpMatchIndex activeAnnotationId
              markdownProposal passages)
    as [[_ Hrun]|(_ & _ & st & Hloop & Hrun)].
  - eexists. eexists. split; [exact Hrun|].
    split; [apply Subsequence_refl | intros _; constructor].
  - eexists. eexists. split; [exact Hrun|]. split.
    + apply placeLoop_Subsequence in Hloop. exact Hloop.
    + intros Hrange.
      eapply placeLoop_TagsInserted; [exact Hrange| |exact Hloop].
      constructor.
Qed.

Lemma marked_text_keeps_document_witness :
  exists html annotations,
    annotateLatin1 riverbankText
      [passage "the riverbank is" "first"; passage "fox" "second"]
    = Normal (html, annotations)
    /\ Subsequence riverbankText html
    /\ TagsInserted None riverbankText html.
Proof.
  destruct (marked_text_keeps_document toLowerCaseLatin1 SmallRegExp.matchIndex
              None riverbankText
              [passage "the riverbank is" "first"; passage "fox" "second"])
    as (html & annotations & Hrun & Hsub & Htags).
  exists html, annotations.
  split; [exact Hrun|]. split; [exact Hsub|].
  apply Htags, smallRegExp_indexWithinSubject.
Defined.

(** * Further properties of the page *)

(** ** The shape of a normalized text *)

Lemma wsNormal_spaces (b : bool) (s : jsstring) :
  wsNormal b s = true ->
  Forall (fun c => isWhiteSpace c = true -> c = SPACE) s.
Proof.
  revert b; induction s as [|c s IH]; intros b; simpl; [constructor|].
  destruct (isWhiteSpace c) eqn:Hc.
  - rewrite !andb_true_iff, N.eqb_eq. intros [[E _] Hs].
    constructor; [intros _; exact E | eapply IH, Hs].
  - intros Hs. constructor; [congruence | eapply IH, Hs].
Qed.

Lemma wsNormal_no_double_space (b : bool) (a rest : jsstring) :
  wsNormal b (a ++ SPACE :: SPACE :: rest) = false.
Proof.
  revert b; induction a as [|c a IH]; intros b; simpl.
  - rewrite andb_false_r. reflexivity.
  - destruct (isWhiteSpace c); [rewrite IH; apply andb_false_r | apply IH].
Qed.

Lemma dropWhile_length {A} (p : A -> bool) (l : list A) :
  (length (dropWhile p l) <= length l)%nat.
Proof.
  induction l as [|x l IH]; simpl; [lia|].
  destruct (p x); simpl; lia.
Qed.

Lemma trimEnd_last (s rest : jsstring) (c : char) :
  trimEnd s = s -> s = rest ++ [c] -> isWhiteSpace c = false.
Proof.
  intros Hfix ->. destruct (isWhiteSpace c) eqn:Hc; [|reflexivity].
  exfalso. apply (f_equal (@length char)) in Hfix.
  unfold trimEnd in Hfix.
  rewrite length_rev, rev_app_distr in Hfix. simpl in Hfix.
  rewrite Hc in Hfix.
  pose proof (dropWhile_length isWhiteSpace (rev rest)) as Hle.
  rewrite length_rev in Hle. rewrite length_app in Hfix. simpl in Hfix. lia.
Qed.

Lemma trimEnd_trim (s : jsstring) : trimEnd (trim s) = trim s.
Proof. unfold trim. apply trimEnd_idem. Qed.

Lemma normalizeText_no_glyph (toLowerCase : jsstring -> jsstring) (t : jsstring) :
  Forall (fun c => isReplacedGlyph c = false) (normalizeText toLowerCase t).
Proof.
  unfold normalizeText. destruct t as [|c0 t0]; [constructor|].
  set (t := c0 :: t0). clearbody t.
  apply trim_Forall, collapseFrom_Forall; [reflexivity|].
  eapply Forall_impl;
    [|apply replaceClass_Forall;
      [apply replaceClass_Forall;
       [apply replaceClass_Forall;
        [apply replaceClass_Forall with (P := fun _ => True);
         [apply Forall_forall; auto|]|]|]|]].
  - unfold isReplacedGlyph. simpl. intros c ((((_ & ->) & ->) & ->) & ->).
    reflexivity.
  - repeat constructor.
  - repeat constructor.
  - repeat constructor.
  - repeat constructor.
Qed.

Lemma normalizeText_wsNormal (toLowerCase : jsstring -> jsstring) (t : jsstring) :
  wsNormal false (normalizeText toLowerCase t) = true
  /\ trimStart (normalizeText toLowerCase t) = normalizeText toLowerCase t
  /\ trimEnd (normalizeText toLowerCase t) = normalizeText toLowerCase t.
Proof.
  unfold normalizeText. destruct t as [|c0 t0]; [repeat split|].
  set (t := c0 :: t0). clearbody t.
  split; [|split].
  - unfold trim. apply wsNormal_trimEnd.
    eapply wsNormal_trimStart. apply wsNormal_collapseFrom.
  - apply trimStart_trim.
  - apply trimEnd_trim.
Qed.

(** X1.  A normalized text has no curly quote, dash or ellipsis glyph;
    its white space is single spaces between other characters: every
    white-space unit is a space, no two spaces are adjacent, and the text
    neither starts nor ends with white space.  This holds for every
    lower-casing function. *)
Theorem normalizeText_shape (toLowerCase : jsstring -> jsstring) (t : jsstring) :
  Forall (fun c => isReplacedGlyph c = false
                   /\ (isWhiteSpace c = true -> c = SPACE))
    (normalizeText toLowerCase t)
  /\ (forall a rest,
        normalizeText toLowerCase t <> a ++ SPACE :: SPACE :: rest)
  /\ (forall c rest,
        normalizeText toLowerCase t = c :: rest -> isWhiteSpace c = false)
  /\ (forall c rest,
        normalizeText toLowerCase t = rest ++ [c] -> isWhiteSpace c = false).
Proof.
  destruct (normalizeText_wsNormal toLowerCase t) as (Hws & Hstart & Hend).
  pose proof (normalizeText_no_glyph toLowerCase t) as Hglyph.
  pose proof (wsNormal_spaces _ _ Hws) as Hsp.
  split; [|split; [|split]].
  - rewrite Forall_forall in *. intros c Hc. split; auto.
  - intros a rest E. rewrite E, wsNormal_no_double_space in Hws.
    discriminate.
  - intros c rest E. rewrite E in Hstart.
    unfold trimStart in Hstart. simpl in Hstart.
    destruct (isWhiteSpace c); [|reflexivity].
    exfalso. apply (f_equal (@length char)) in Hstart.
    pose proof (dropWhile_length isWhiteSpace rest). simpl in Hstart. lia.
  - intros c rest E. eapply trimEnd_last; eassumption.
Qed.

Lemma normalizeText_shape_witness :
  isWhiteSpace 104%N = false /\ isWhiteSpace 46%N = false.
Proof.
  destruct (normalizeText_shape toLowerCaseLatin1 curlyText)
    as (_ & _ & Hfirst & Hlast).
  split.
  - apply (Hfirst 104%N (skipn 1 (normalizeLatin1 curlyText))).
    vm_compute. reflexivity.
  - apply (Hlast 46%N (firstn 15 (normalizeLatin1 curlyText))).
    vm_compute. reflexivity.
Defined.

(** ** Normalizing and the glyph variants *)

Lemma straighten_no_glyph (s : jsstring) :
  Forall (fun c => isReplacedGlyph c = false) (straighten s).
Proof.
  unfold straighten.
  eapply Forall_impl;
    [|apply replaceClass_Forall;
      [apply replaceClass_Forall;
       [apply replaceClass_Forall;
        [apply replaceClass_Forall with (P := fun _ => True);
         [apply Forall_forall; auto|]|]|]|]].
  - unfold isReplacedGlyph. simpl. intros c ((((_ & ->) & ->) & ->) & ->).
    reflexivity.
  - repeat constructor.
  - repeat constructor.
  - repeat constructor.
  - repeat constructor.
Qed.

Lemma straighten_fixed (u : jsstring) :
  Forall (fun c => isReplacedGlyph c = false) u -> straighten u = u.
Proof.
  intros Hu. unfold straighten.
  assert (H : Forall (fun c => isSingleCurlyQuote c = false
                               /\ isDoubleCurlyQuote c = false
                               /\ isDash c = false
                               /\ isEllipsis c = false) u).
  { eapply Forall_impl; [|exact Hu]. intros c.
    unfold isReplacedGlyph. rewrite !orb_false_iff. tauto. }
  rewrite (replaceClass_id isSingleCurlyQuote)
    by (eapply Forall_impl; [|exact H]; simpl; tauto).
  rewrite (replaceClass_id isDoubleCurlyQuote)
    by (eapply Forall_impl; [|exact H]; simpl; tauto).
  rewrite (replaceClass_id isDash)
    by (eapply Forall_impl; [|exact H]; simpl; tauto).
  rewrite (replaceClass_id isEllipsis)
    by (eapply Forall_impl; [|exact H]; simpl; tauto).
  reflexivity.
Qed.

Lemma straighten_idem (s : jsstring) :
  straighten (straighten s) = straighten s.
Proof. apply straighten_fixed, straighten_no_glyph. Qed.

Lemma replaceClass_nil cls r (s : jsstring) :
  r <> [] -> replaceClass cls r s = [] -> s = [].
Proof.
  intros Hr. destruct s as [|c s]; [reflexivity|].
  unfold replaceClass. cbn [flat_map].
  destruct (cls c); intros H; apply app_eq_nil in H; destruct H as [H _];
    [contradiction | discriminate].
Qed.

Lemma straighten_nil (s : jsstring) : straighten s = [] -> s = [].
Proof.
  unfold straighten. intros H.
  repeat (apply replaceClass_nil in H; [|discriminate]).
  exact H.
Qed.

(** The steps behind the lower-casing, for a text that is not empty. *)
Lemma normalizeText_steps (toLowerCase : jsstring -> jsstring)
  (t : jsstring) :
  t <> [] ->
  normalizeText toLowerCase t
  = trim (collapseWhiteSpace (straighten (toLowerCase t))).
Proof. destruct t; [contradiction | reflexivity]. Qed.

(** X2.  Normalizing does not tell a text from the same text with its
    curly quotes, dashes and ellipses already written as apostrophes,
    quotes, hyphens and periods, for every lower-casing function and
    every text on which lower-casing and this rewriting can be done in
    either order. *)
Theorem normalizeText_straighten (toLowerCase : jsstring -> jsstring)
  (t : jsstring) :
  toLowerCase (straighten t) = straighten (toLowerCase t) ->
  normalizeText toLowerCase (straighten t) = normalizeText toLowerCase t.
Proof.
  intros Hcommute.
  destruct t as [|c t]; [reflexivity|].
  rewrite !normalizeText_steps;
    [|discriminate | intros E; apply straighten_nil in E; discriminate E].
  rewrite Hcommute, straighten_idem. reflexivity.
Qed.

Lemma normalizeText_straighten_witness :
  normalizeLatin1 (straighten curlyText) = normalizeLatin1 curlyText.
Proof.
  apply (normalizeText_straighten toLowerCaseLatin1 curlyText).
  vm_compute. reflexivity.
Defined.

(** X20.  A second run of the normalizer changes nothing, for every
    lower-casing function and every text whose normalized form is left
    as it is by lower-casing: the replacements of glyphs, the collapsing
    of white space and the trimming leave their own output as it is. *)
Theorem normalizeText_twice
  (toLowerCase : jsstring -> jsstring) (t : jsstring) :
  toLowerCase (normalizeText toLowerCase t) = normalizeText toLowerCase t ->
  normalizeText toLowerCase (normalizeText toLowerCase t)
  = normalizeText toLowerCase t.
Proof.
  intros Hlower.
  destruct (normalizeText_wsNormal toLowerCase t) as (Hws & Hstart & Hend).
  pose proof (normalizeText_no_glyph toLowerCase t) as Hglyph.
  destruct (normalizeText toLowerCase t) as [|c n] eqn:E; [reflexivity|].
  rewrite normalizeText_steps by discriminate.
  rewrite Hlower, (straighten_fixed Hglyph).
  unfold collapseWhiteSpace. rewrite collapseFrom_wsNormal by exact Hws.
  unfold trim. rewrite Hstart. exact Hend.
Qed.

Lemma normalizeText_twice_witness :
  normalizeLatin1 (normalizeLatin1 curlyText) = normalizeLatin1 curlyText.
Proof.
  apply (normalizeText_twice toLowerCaseLatin1 curlyText).
  vm_compute. reflexivity.
Defined.

(** ** The steps of the normalizer over a case table *)

Lemma normalizeText_unfold (lowerUnit : char -> jsstring) (t : jsstring) :
  normalizeText (tableLowerCase lowerUnit) t
  = trim (collapseWhiteSpace (straighten (tableLowerCase lowerUnit t))).
Proof. destruct t; reflexivity. Qed.

(** ** Normalizing a text without ellipsis does not lengthen it *)

Lemma trim_strlen (s : jsstring) : strlen (trim s) <= strlen s.
Proof.
  unfold trim, trimEnd, trimStart, strlen.
  rewrite length_rev.
  pose proof (dropWhile_length isWhiteSpace
                (rev (dropWhile isWhiteSpace s))) as H1.
  rewrite length_rev in H1.
  pose proof (dropWhile_length isWhiteSpace s). lia.
Qed.

Lemma collapseFrom_strlen (b : bool) (s : jsstring) :
  strlen (collapseFrom b s) <= strlen s.
Proof.
  unfold strlen. revert b; induction s as [|c s IH]; intros b; simpl; [lia|].
  destruct (isWhiteSpace c); [destruct b|]; simpl;
    [specialize (IH true) | specialize (IH true) | specialize (IH false)];
    lia.
Qed.

Lemma replaceClass_unit_strlen cls (r s : jsstring) :
  length r = 1%nat -> strlen (replaceClass cls r s) = strlen s.
Proof.
  intros Hr. unfold strlen, replaceClass. f_equal.
  induction s as [|c s IH]; simpl; [reflexivity|].
  rewrite length_app, IH. destruct (cls c); [rewrite Hr|]; reflexivity.
Qed.

Lemma replaceClass_keeps (P : char -> Prop) cls r (s : jsstring) :
  Forall P s -> Forall P r -> Forall P (replaceClass cls r s).
Proof.
  intros Hs Hr. unfold replaceClass.
  induction Hs as [|c s Hc Hs IH]; simpl; [constructor|].
  apply Forall_app; split; [|exact IH].
  destruct (cls c); [exact Hr | constructor; [exact Hc | constructor]].
Qed.

(** X5.  When lower-casing works from a case table, and no unit of a
    text gets longer in lower case and none becomes an ellipsis, the
    normalized text is not longer than the text. *)
Theorem normalizeText_not_longer (lowerUnit : char -> jsstring)
  (t : jsstring) :
  Forall (fun c => (length (lowerUnit c) <= 1)%nat
                   /\ Forall (fun d => isEllipsis d = false) (lowerUnit c)) t ->
  strlen (normalizeText (tableLowerCase lowerUnit) t) <= strlen t.
Proof.
  intros H. rewrite normalizeText_unfold.
  eapply Z.le_trans; [apply trim_strlen|].
  eapply Z.le_trans; [apply collapseFrom_strlen|].
  assert (Hlen : strlen (tableLowerCase lowerUnit t) <= strlen t).
  { unfold strlen, tableLowerCase.
    induction H as [|c t [Hc _] Ht IH]; simpl; [lia|].
    rewrite length_app. lia. }
  assert (Hdots : Forall (fun d => isEllipsis d = false)
                    (tableLowerCase lowerUnit t)).
  { unfold tableLowerCase. clear Hlen.
    induction H as [|c t [_ Hc] Ht IH]; simpl; [constructor|].
    apply Forall_app; split; assumption. }
  unfold straighten.
  rewrite replaceClass_id.
  - rewrite !replaceClass_unit_strlen by reflexivity. exact Hlen.
  - repeat apply replaceClass_keeps; try exact Hdots; repeat constructor.
Qed.

Lemma normalizeText_not_longer_witness :
  strlen (normalizeLatin1 (lit "  The  Quick fox "))
  <= strlen (lit "  The  Quick fox ").
Proof.
  apply (normalizeText_not_longer lowerUnitLatin1).
  repeat constructor.
Defined.

(** ** [indexOf] *)

Lemma startsWith_firstn (k : nat) (needle hay : jsstring) :
  startsWith needle hay = true -> startsWith (firstn k needle) hay = true.
Proof.
  revert needle hay; induction k as [|k IH]; intros [|x needle] [|y hay];
    simpl; try reflexivity; try discriminate.
  rewrite !andb_true_iff. intros [Hxy H]. split; [exact Hxy | apply IH, H].
Qed.

Lemma startsWith_length (needle hay : jsstring) :
  startsWith needle hay = true -> (length needle <= length hay)%nat.
Proof.
  revert hay; induction needle as [|x needle IH]; intros [|y hay]; simpl;
    try discriminate; try lia.
  rewrite andb_true_iff. intros [_ H]. apply IH in H. lia.
Qed.

(** [indexOf] finds an occurrence when there is one, and the first. *)
Lemma indexOfFrom_first (needle hay : jsstring) (pos : Z) (i : nat) :
  startsWith needle (skipn i hay) = true ->
  pos <= indexOfFrom needle hay pos <= pos + Z.of_nat i.
Proof.
  revert pos i; induction hay as [|c hay IH]; intros pos i H; simpl.
  - rewrite skipn_nil in H. rewrite H. lia.
  - destruct (startsWith needle (c :: hay)) eqn:E; [lia|].
    destruct i as [|i]; [simpl in H; congruence|].
    simpl in H. specialize (IH (pos + 1) i H). lia.
Qed.

Lemma indexOf_first (hay needle : jsstring) (i : nat) :
  startsWith needle (skipn i hay) = true ->
  0 <= indexOf hay needle <= Z.of_nat i.
Proof. intros H. apply (indexOfFrom_first needle hay 0 i H). Qed.

Lemma indexOfFrom_found (needle hay : jsstring) (pos : Z) :
  0 <= pos ->
  pos <= indexOfFrom needle hay pos ->
  startsWith needle
    (skipn (Z.to_nat (indexOfFrom needle hay pos - pos)) hay) = true.
Proof.
  revert pos; induction hay as [|c hay IH]; intros pos Hpos; simpl.
  - destruct (startsWith needle []) eqn:E; [|lia].
    intros _. rewrite Z.sub_diag. exact E.
  - destruct (startsWith needle (c :: hay)) eqn:E.
    + intros _. rewrite Z.sub_diag. exact E.
    + intros H.
      destruct (indexOfFrom_range needle hay (pos + 1)) as [Hneg|Hr];
        [lia|].
      specialize (IH (pos + 1) ltac:(lia) ltac:(lia)).
      replace (Z.to_nat (indexOfFrom needle hay (pos + 1) - pos))
        with (S (Z.to_nat (indexOfFrom needle hay (pos + 1) - (pos + 1))))
        by lia.
      exact IH.
Qed.

Lemma indexOf_found (hay needle : jsstring) :
  0 <= indexOf hay needle ->
  startsWith needle (skipn (Z.to_nat (indexOf hay needle)) hay) = true.
Proof.
  intros H.
  pose proof (@indexOfFrom_found needle hay 0 ltac:(lia) H) as Hf.
  rewrite Z.sub_0_r in Hf. exact Hf.
Qed.

(** A found needle lies within the haystack. *)
Lemma indexOf_fits (hay needle : jsstring) :
  0 <= indexOf hay needle ->
  indexOf hay needle + strlen needle <= strlen hay.
Proof.
  intros H. pose proof (indexOf_found hay needle H) as Hf.
  apply startsWith_length in Hf. rewrite length_skipn in Hf.
  pose proof (indexOf_range hay needle H). unfold strlen in *. lia.
Qed.

(** ** The span of a match *)

Section SpanFacts.

Variable toLowerCase : jsstring -> jsstring.
Variable regExpMatchIndex : jsstring -> jsstring -> Completion (option Z).

(** What the chunk block returns: the start is computed from the
    position of a chunk that was found, and is not behind it. *)
Lemma chunkBlock_span needle haystack m :
  chunkBlock toLowerCase needle haystack = Some m ->
  exists chunk,
    let idx := indexOf (normalizeText toLowerCase haystack) chunk in
    In chunk (chunksOf (normalizeText toLowerCase needle))
    /\ 0 <= idx
    /\ 0 <= startIndex m <= idx
    /\ endIndex m
       = Z.min (strlen haystack) (startIndex m + strlen needle + 20)
    /\ matchedText m = substring haystack (startIndex m) (endIndex m)
    /\ (forall other,
          In other (chunksOf (normalizeText toLowerCase needle)) ->
          0 <= indexOf (normalizeText toLowerCase haystack) other ->
          idx <= indexOf (normalizeText toLowerCase haystack) other).
Proof.
  unfold chunkBlock, chunkStrategy.
  set (nn := normalizeText toLowerCase needle).
  set (hn := normalizeText toLowerCase haystack).
  destruct (50 <? strlen nn) eqn:Hlen; [|discriminate].
  apply Z.ltb_lt in Hlen.
  destruct (jsSort _ (chunkLocations (chunksOf nn) hn))
    as [|[chunk idx] rest] eqn:Hsort; [discriminate|].
  assert (Hin : In (chunk, idx) (chunkLocations (chunksOf nn) hn)).
  { eapply jsSort_In. rewrite Hsort. left; reflexivity. }
  unfold chunkLocations in Hin. apply filter_In in Hin.
  destruct Hin as [Hin Hpos]. simpl in Hpos. apply Z.leb_le in Hpos.
  apply in_map_iff in Hin. destruct Hin as (chunk' & [= -> <-] & Hchunk).
  assert (Hsorted : StronglySorted (fun a b : jsstring * Z => snd a <= snd b)
                      ((chunk, indexOf hn chunk) :: rest)).
  { rewrite <- Hsort.
    apply jsSort_sorted with (ok := fun _ => True).
    - intros x y z; lia.
    - intros x y _ _; simpl. rewrite Z.ltb_ge. lia.
    - intros x y _ _; simpl. rewrite Z.ltb_lt. lia.
    - apply Forall_forall; auto. }
  intros [= <-]. exists chunk. cbn zeta. simpl.
  split; [exact Hchunk|]. split; [exact Hpos|].
  split; [|split; [|split]].
  - assert (15 <= strlen nn / 2) by (apply Z.div_le_lower_bound; lia).
    destruct (str_eqb chunk _); [lia|].
    destruct (str_eqb chunk _); lia.
  - reflexivity.
  - reflexivity.
  - intros other Hother Hfound.
    assert (Hloc : In (other, indexOf hn other)
                     ((chunk, indexOf hn chunk) :: rest)).
    { rewrite <- Hsort. apply jsSort_In. unfold chunkLocations.
      apply filter_In. split.
      - apply in_map_iff. exists other. auto.
      - simpl. apply Z.leb_le. exact Hfound. }
    destruct Hloc as [[= _ ->]|Hloc]; [lia|].
    apply StronglySorted_inv in Hsorted. destruct Hsorted as [_ Hall].
    rewrite Forall_forall in Hall. apply (Hall _ Hloc).
Qed.

Lemma wordSequenceStrategy_span needle haystack hn words m :
  wordSequenceStrategy regExpMatchIndex needle haystack hn words
  = Normal (Some m) ->
  wordSpan needle haystack hn 20 m.
Proof.
  unfold wordSequenceStrategy.
  destruct (3 <=? length words)%nat; [|discriminate].
  generalize (seq 0 (length words - 2)); intros indices.
  induction indices as [|i rest IH]; simpl; [discriminate|].
  destruct (tryWordSequence_normal regExpMatchIndex needle haystack hn
              (slice words i (i + 3))) as [[w|] Hw]; rewrite Hw; simpl.
  - intros [= <-]. revert Hw. unfold tryWordSequence.
    destruct (regExpMatchIndex _ hn) as [[index|]|e]; simpl;
      intros [= <-].
    exists index. simpl. auto.
  - exact IH.
Qed.

Lemma singleWordStrategy_span needle haystack hn significantWords m :
  singleWordStrategy toLowerCase needle haystack hn significantWords
  = Normal (Some m) ->
  wordSpan needle haystack hn 10 m.
Proof.
  induction significantWords as [|word rest IH]; simpl; [discriminate|].
  destruct (tryWord_normal toLowerCase needle haystack hn word) as [[w|] Hw];
    rewrite Hw; simpl.
  - intros [= <-]. revert Hw. unfold tryWord.
    destruct (0 <=? indexOf hn _); simpl; intros [= <-].
    eexists. simpl. auto.
  - exact IH.
Qed.

End SpanFacts.

(** X3.  A match is found only for a quote of at least 10 code units; its
    start is not negative, its end is not behind the longer of the
    haystack and the normalized haystack, and its text is the haystack cut
    at the start and the end.  This holds for every lower-casing function
    and every engine. *)
Theorem match_span_basics
  (toLowerCase : jsstring -> jsstring)
  (regExpMatchIndex : jsstring -> jsstring -> Completion (option Z))
  (needle haystack : jsstring) (m : MatchResult) :
  findBestSubstringMatch toLowerCase regExpMatchIndex needle haystack
  = Normal (Some m) ->
  10 <= strlen needle
  /\ 0 <= startIndex m
  /\ endIndex m
     <= Z.max (strlen haystack) (strlen (normalizeText toLowerCase haystack))
  /\ matchedText m = substring haystack (startIndex m) (endIndex m).
Proof.
  intros H. apply findBestSubstringMatch_tiers in H.
  destruct H as [Hlen [Hc|[[_ Hw]|(_ & _ & Hs)]]]; split; try exact Hlen.
  - apply chunkBlock_span in Hc.
    destruct Hc as (chunk & _ & _ & Hstart & Hend & Htext & _).
    repeat split; try assumption; lia.
  - apply wordSequenceStrategy_span in Hw.
    destruct Hw as (i & Hstart & Hend & Htext).
    repeat split; try assumption; lia.
  - apply singleWordStrategy_span in Hs.
    destruct Hs as (i & Hstart & Hend & Htext).
    repeat split; try assumption; lia.
Qed.

Lemma match_span_basics_witness :
  exists m,
    findLatin1 (lit "the riverbank is") riverbankText = Normal (Some m)
    /\ 0 <= startIndex m
    /\ matchedText m = substring riverbankText (startIndex m) (endIndex m).
Proof.
  assert (H : findLatin1 (lit "the riverbank is") riverbankText
              = Normal (Some (wordHit (lit "the riverbank is") riverbankText
                                (normalizeLatin1 riverbankText) 53)))
    by (vm_compute; reflexivity).
  eexists. split; [exact H|].
  destruct (@match_span_basics toLowerCaseLatin1 SmallRegExp.matchIndex
              (lit "the riverbank is") riverbankText _ H)
    as (_ & Hstart & _ & Htext).
  split; [exact Hstart | exact Htext].
Defined.

(** X4.  When the normalized haystack is not longer than the haystack and
    the index of a regular-expression match is a position of its subject,
    the span of a match lies within the haystack, with the start not
    behind the end. *)
Theorem span_within_haystack
  (toLowerCase : jsstring -> jsstring)
  (regExpMatchIndex : jsstring -> jsstring -> Completion (option Z))
  (needle haystack : jsstring) (m : MatchResult) :
  strlen (normalizeText toLowerCase haystack) <= strlen haystack ->
  indexWithinSubject regExpMatchIndex ->
  findBestSubstringMatch toLowerCase regExpMatchIndex needle haystack
  = Normal (Some m) ->
  0 <= startIndex m
  /\ startIndex m <= endIndex m
  /\ endIndex m <= strlen haystack.
Proof.
  intros Hn Hrange H. apply findBestSubstringMatch_tiers in H.
  destruct H as [Hlen [Hc|[[_ Hw]|(_ & _ & Hs)]]].
  - apply chunkBlock_span in Hc.
    destruct Hc as (chunk & _ & Hpos & Hstart & Hend & _ & _).
    pose proof (indexOf_range _ _ Hpos). lia.
  - pose proof (wordSequenceStrategy_ordered Hrange _ _ _ _ Hw).
    apply wordSequenceStrategy_span in Hw.
    destruct Hw as (i & Hstart & Hend & _). lia.
  - pose proof (singleWordStrategy_ordered _ _ _ _ _ Hs).
    apply singleWordStrategy_span in Hs.
    destruct Hs as (i & Hstart & Hend & _). lia.
Qed.

Lemma span_within_haystack_witness :
  exists m,
    findLatin1 (lit "Found   SEVERAL issues") longQuote = Normal (Some m)
    /\ 0 <= startIndex m
    /\ startIndex m <= endIndex m
    /\ endIndex m <= strlen longQuote.
Proof.
  assert (H : exists m, findLatin1 (lit "Found   SEVERAL issues") longQuote
                        = Normal (Some m))
    by (eexists; vm_compute; reflexivity).
  destruct H as [m H]. exists m. split; [exact H|].
  apply (@span_within_haystack toLowerCaseLatin1 SmallRegExp.matchIndex
           (lit "Found   SEVERAL issues") longQuote m).
  - vm_compute. discriminate.
  - exact smallRegExp_indexWithinSubject.
  - exact H.
Defined.

(** X13.  A quote of at least 10 code units whose normalized form is
    longer than 50 and occurs in the normalized haystack is always
    matched, by the chunk strategy: the similarity is 0.9 and the start is
    not behind the first occurrence of the normalized quote. *)
Theorem verbatim_long_quote_found
  (toLowerCase : jsstring -> jsstring)
  (regExpMatchIndex : jsstring -> jsstring -> Completion (option Z))
  (needle haystack : jsstring) :
  10 <= strlen needle ->
  50 < strlen (normalizeText toLowerCase needle) ->
  0 <= indexOf (normalizeText toLowerCase haystack)
         (normalizeText toLowerCase needle) ->
  exists m,
    findBestSubstringMatch toLowerCase regExpMatchIndex needle haystack
    = Normal (Some m)
    /\ similarity m = 9 # 10
    /\ 0 <= startIndex m
       <= indexOf (normalizeText toLowerCase haystack)
            (normalizeText toLowerCase needle).
Proof.
  intros Hraw Hlen Hocc.
  set (nn := normalizeText toLowerCase needle) in *.
  set (hn := normalizeText toLowerCase haystack) in *.
  assert (Hchunk : substring nn 0 30 = firstn 30 nn).
  { rewrite substring_prefix. f_equal. unfold clampIndex. lia. }
  assert (Hidx0 : 0 <= indexOf hn (substring nn 0 30) <= indexOf hn nn).
  { pose proof (indexOf_found hn nn Hocc) as Hf.
    apply (startsWith_firstn 30) in Hf. rewrite <- Hchunk in Hf.
    pose proof (indexOf_first hn (substring nn 0 30) _ Hf). lia. }
  assert (Hin0 : In (substring nn 0 30) (chunksOf nn)) by (left; reflexivity).
  destruct (chunkBlock toLowerCase needle haystack) as [m|] eqn:Hc.
  - exists m. split.
    + unfold findBestSubstringMatch.
      apply Z.ltb_ge in Hraw. rewrite Hraw, Hc. reflexivity.
    + split; [eapply chunkBlock_similarity; eauto|].
      apply chunkBlock_span in Hc.
      destruct Hc as (chunk & _ & _ & Hstart & _ & _ & Hmin).
      specialize (Hmin _ Hin0 ltac:(fold hn; lia)). fold hn in Hmin, Hstart.
      lia.
  - exfalso. revert Hc. unfold chunkBlock, chunkStrategy. fold nn hn.
    apply Z.ltb_lt in Hlen. rewrite Hlen.
    destruct (jsSort _ (chunkLocations (chunksOf nn) hn)) eqn:Hsort;
      [|discriminate].
    intros _.
    assert (Hloc : In (substring nn 0 30, indexOf hn (substring nn 0 30))
                     (chunkLocations (chunksOf nn) hn)).
    { unfold chunkLocations. apply filter_In. split.
      - apply in_map_iff. eexists; split; [reflexivity | exact Hin0].
      - simpl. apply Z.leb_le. lia. }
    eapply jsSort_In in Hloc. rewrite Hsort in Hloc. destruct Hloc.
Qed.

Lemma verbatim_long_quote_found_witness :
  exists m,
    findLatin1 longQuote (lit "We note that " ++ longQuote ++ lit " in it.")
    = Normal (Some m)
    /\ similarity m = 9 # 10
    /\ 0 <= startIndex m <= 13.
Proof.
  destruct (@verbatim_long_quote_found toLowerCaseLatin1 SmallRegExp.matchIndex
              longQuote (lit "We note that " ++ longQuote ++ lit " in it."))
    as (m & Hm & Hsim & Hstart).
  - vm_compute. discriminate.
  - vm_compute. reflexivity.
  - vm_compute. discriminate.
  - exists m. split; [exact Hm|]. split; [exact Hsim|].
    vm_compute (indexOf _ _) in Hstart. exact Hstart.
Defined.

(** ** Looking passages up *)

Lemma passageMap_has (passages : list FeedbackPassage) (q : jsstring) :
  mapHas q (passageMap passages) = true
  <-> In q (map referenced_student_text_quote passages).
Proof.
  induction passages as [|p passages IH] using rev_ind.
  - simpl. split; [discriminate | tauto].
  - rewrite passageMap_snoc, mapHas_mapSet, map_app, in_app_iff,
      orb_true_iff, IH, str_eqb_eq.
    simpl. tauto.
Qed.

(** X9.  [passageMap] has an entry exactly for the quotes of the list, so
    that the loop never skips a passage for a missing entry; the entry of
    a quote holds the last passage of the list with this quote, with the
    id made from the index of that passage. *)
Theorem passageMap_lookup (passages : list FeedbackPassage) (q : jsstring) :
  match mapGet q (passageMap passages) with
  | Some info =>
      In q (map referenced_student_text_quote passages)
      /\ exists i,
           nth_error passages i = Some (info_passage info)
           /\ referenced_student_text_quote (info_passage info) = q
           /\ info_id info = lit "annotation-" ++ indexToString i
           /\ forall j p, (i < j)%nat -> nth_error passages j = Some p ->
                          referenced_student_text_quote p <> q
  | None => ~ In q (map referenced_student_text_quote passages)
  end.
Proof.
  pose proof (passageMap_has passages q) as Hhas. unfold mapHas in Hhas.
  destruct (mapGet q (passageMap passages)) as [info|] eqn:E.
  - split; [apply Hhas; reflexivity | apply passageMap_get, E].
  - intros Hin. apply Hhas in Hin. discriminate.
Qed.

(** ** The order of processing *)

Lemma sortInsert_stable {A} (key : A -> Z) (k : Z) (x : A) (l : list A) :
  filter (fun p => key p =? k)
    (sortInsert (fun a b => Finite (key b - key a)) x l)
  = filter (fun p => key p =? k) (x :: l).
Proof.
  induction l as [|y l IH]; [reflexivity|].
  cbn [sortInsert number_pos].
  destruct (0 <? key y - key x) eqn:E; [|reflexivity].
  apply Z.ltb_lt in E.
  cbn [filter] in *. rewrite IH.
  destruct (key x =? k) eqn:Ex, (key y =? k) eqn:Ey; try reflexivity.
  apply Z.eqb_eq in Ex, Ey. lia.
Qed.

Lemma jsSort_stable {A} (key : A -> Z) (k : Z) (l : list A) :
  filter (fun p => key p =? k) (jsSort (fun a b => Finite (key b - key a)) l)
  = filter (fun p => key p =? k) l.
Proof.
  induction l as [|x l IH]; [reflexivity|].
  cbn [jsSort]. rewrite sortInsert_stable. cbn [filter]. rewrite IH.
  reflexivity.
Qed.

(** X10.  The passages are gone through longest quote first: the order
    of processing is a rearrangement of the list, in descending length of
    the quotes, in which passages with quotes of the same length keep the
    order of the list. *)
Theorem sortedPassages_longest_first (passages : list FeedbackPassage) :
  Permutation (sortedPassages passages) passages
  /\ StronglySorted
       (fun a b => strlen (referenced_student_text_quote b)
                   <= strlen (referenced_student_text_quote a))
       (sortedPassages passages)
  /\ forall k,
       filter (fun p => strlen (referenced_student_text_quote p) =? k)
         (sortedPassages passages)
       = filter (fun p => strlen (referenced_student_text_quote p) =? k)
           passages.
Proof.
  unfold sortedPassages. split; [apply jsSort_perm|]. split.
  - apply jsSort_sorted with (ok := fun _ => True).
    + intros x y z; lia.
    + intros x y _ _; simpl. rewrite Z.ltb_ge. lia.
    + intros x y _ _; simpl. rewrite Z.ltb_lt. lia.
    + apply Forall_forall; auto.
  - intros k.
    apply (jsSort_stable
             (fun p => strlen (referenced_student_text_quote p)) k).
Qed.

(** ** Runs without a match *)

Section UnmatchedRuns.

Variable toLowerCase : jsstring -> jsstring.
Variable regExpMatchIndex : jsstring -> jsstring -> Completion (option Z).
Variable activeAnnotationId : option jsstring.

Lemma placeLoop_no_match originalHtml pmap passages st :
  (forall p, In p passages ->
     findBestSubstringMatch toLowerCase regExpMatchIndex
       (referenced_student_text_quote p) (processedHtml st) = Normal None) ->
  placeLoop toLowerCase regExpMatchIndex activeAnnotationId
    originalHtml pmap st passages = Normal st.
Proof.
  induction passages as [|p rest IH]; intros H; simpl; [reflexivity|].
  unfold placeStep at 1.
  rewrite (H p (or_introl eq_refl)).
  destruct (mapGet _ pmap); simpl;
    apply IH; intros q Hq; apply H; right; exact Hq.
Qed.

End UnmatchedRuns.

Lemma unmatchedPassages_nil (passages : list FeedbackPassage) :
  unmatchedPassages passages [] = passages.
Proof.
  unfold unmatchedPassages.
  induction passages as [|p passages IH]; [reflexivity|].
  cbn [filter mapHas mapGet negb]. f_equal. exact IH.
Qed.

(** X6.  When the text is not empty and no quote of the list is found in
    it, the marked text is the text and the annotations are the passages
    in the order of the list, all unmatched, with the ids [unmatched-0],
    [unmatched-1] and so on. *)
Theorem no_match_leaves_text
  (toLowerCase : jsstring -> jsstring)
  (regExpMatchIndex : jsstring -> jsstring -> Completion (option Z))
  (activeAnnotationId : option jsstring)
  (markdownProposal : jsstring) (passages : list FeedbackPassage) :
  markdownProposal <> [] ->
  (forall p, In p passages ->
     findBestSubstringMatch toLowerCase regExpMatchIndex
       (referenced_student_text_quote p) markdownProposal = Normal None) ->
  annotate toLowerCase regExpMatchIndex activeAnnotationId
    markdownProposal passages
  = Normal (markdownProposal, map unmatchedAnnotation (indexed passages)).
Proof.
  intros Hdoc Hnone. unfold annotate.
  destruct markdownProposal as [|c doc]; [contradiction|].
  destruct passages as [|p passages]; [reflexivity|].
  rewrite placeLoop_no_match.
  - simpl bind. unfold allAnnotations, unmatchedAnnotationsData.
    cbn [initialState matchedPassages processedHtml].
    rewrite unmatchedPassages_nil.
    cbn [matchedAnnotationsData mapValues map app].
    rewrite jsSort_unmatched by apply unmatchedAnnotations_infinite.
    reflexivity.
  - intros q Hq. cbn [initialState processedHtml].
    apply Hnone. unfold sortedPassages in Hq.
    apply jsSort_In in Hq. exact Hq.
Qed.

Lemma no_match_leaves_text_witness :
  annotateLatin1 riverbankText
    [passage "fox" "first"; passage "flying purple hippopotamus" "second"]
  = Normal (riverbankText,
            map unmatchedAnnotation
              (indexed [passage "fox" "first";
                        passage "flying purple hippopotamus" "second"])).
Proof.
  apply (@no_match_leaves_text toLowerCaseLatin1 SmallRegExp.matchIndex None
           riverbankText
           [passage "fox" "first";
            passage "flying purple hippopotamus" "second"]).
  - vm_compute. discriminate.
  - intros p [<-|[<-|[]]]; vm_compute; reflexivity.
Defined.

(** ** The annotations and the passages *)

Lemma filter_split_length {A} (f : A -> bool) (l : list A) :
  (length (filter f l) + length (filter (fun x => negb (f x)) l)
   = length l)%nat.
Proof.
  rewrite <- length_app. apply Permutation_length, filter_split_Permutation.
Qed.

Lemma indexed_In {A} (l : list A) (x : A) :
  In x l -> exists i, In (i, x) (indexed l).
Proof.
  intros H. rewrite <- (indexed_snd l) in H.
  apply in_map_iff in H. destruct H as ([i y] & Hy & Hin).
  simpl in Hy; subst y. exists i. exact Hin.
Qed.

(** X7.  The callback never returns more annotations than there are
    passages, and every annotation has the quote, the comment and the
    guideline of a passage of the list. *)
Theorem annotations_from_passages
  (toLowerCase : jsstring -> jsstring)
  (regExpMatchIndex : jsstring -> jsstring -> Completion (option Z))
  (activeAnnotationId : option jsstring)
  (markdownProposal : jsstring) (passages : list FeedbackPassage) :
  exists html annotations,
    annotate toLowerCase regExpMatchIndex activeAnnotationId
      markdownProposal passages
    = Normal (html, annotations)
    /\ (length annotations <= length passages)%nat
    /\ Forall (fun a => exists p, In p passages /\ recordOf a = passageRecord p)
         annotations.
Proof.
  destruct (annotate_cases toLowerCase regExpMatchIndex activeAnnotationId
              markdownProposal passages)
    as [[_ Hrun]|(_ & _ & st & Hloop & Hrun)].
  - eexists. eexists. split; [exact Hrun|].
    split; [simpl; lia | constructor].
  - eexists. eexists. split; [exact Hrun|].
    destruct (placeLoop_entries _ _ _ _ _ Hloop) as [Hnd Hent].
    set (has := fun p => mapHas (referenced_student_text_quote p)
                           (matchedPassages st)).
    split.
    + rewrite length_app, jsSort_length, !length_map.
      unfold matchedAnnotationsData, mapValues. rewrite !length_map.
      unfold indexed. rewrite length_combine, length_seq, Nat.min_id.
      pose proof (filter_split_length has passages) as Hsplit.
      assert (Hkeys : (length (map fst (matchedPassages st))
                       <= length (map referenced_student_text_quote
                                    (filter has passages)))%nat).
      { apply NoDup_incl_length; [exact Hnd|].
        intros k Hk. apply in_map_iff in Hk.
        destruct Hk as ([k' v] & Hfst & Hin). simpl in Hfst; subst k'.
        destruct (Hent _ _ Hin) as [Hp Hq].
        apply in_map_iff. exists (matched_passage v). split; [exact Hq|].
        apply filter_In. split; [exact Hp|].
        unfold has. rewrite Hq. apply mapHas_keys.
        apply in_map_iff. exists (k, v). auto. }
      rewrite !length_map in Hkeys.
      unfold unmatchedPassages. subst has. cbv beta in Hsplit, Hkeys. lia.
    + apply Forall_app. split.
      * apply (Permutation_Forall (Permutation_sym (jsSort_perm _ _))).
        apply Forall_forall. intros a Ha.
        unfold matchedAnnotationsData, mapValues in Ha.
        apply in_map_iff in Ha. destruct Ha as (v & <- & Hv).
        apply in_map_iff in Hv. destruct Hv as ([k v'] & Hsnd & Hin).
        simpl in Hsnd; subst v'.
        exists (matched_passage v). split; [apply (Hent _ _ Hin)|].
        reflexivity.
      * apply Forall_forall. intros a Ha.
        apply in_map_iff in Ha. destruct Ha as ([i p] & <- & Hin).
        exists p. split; [|reflexivity].
        apply (in_map snd) in Hin. rewrite indexed_snd in Hin.
        unfold unmatchedPassages in Hin. apply filter_In in Hin.
        apply Hin.
Qed.

(** X8.  For a text that is not empty, no quote is lost: for every
    passage of the list an annotation with its quote is returned. *)
Theorem every_quote_annotated
  (toLowerCase : jsstring -> jsstring)
  (regExpMatchIndex : jsstring -> jsstring -> Completion (option Z))
  (activeAnnotationId : option jsstring)
  (markdownProposal : jsstring) (passages : list FeedbackPassage) :
  markdownProposal <> [] ->
  exists html annotations,
    annotate toLowerCase regExpMatchIndex activeAnnotationId
      markdownProposal passages
    = Normal (html, annotations)
    /\ forall p, In p passages ->
         exists a, In a annotations
                   /\ Annotation.quote a = referenced_student_text_quote p.
Proof.
  intros Hdoc.
  destruct (annotate_cases toLowerCase regExpMatchIndex activeAnnotationId
              markdownProposal passages)
    as [[[Hd|Hp] Hrun]|(_ & _ & st & Hloop & Hrun)].
  - contradiction.
  - subst passages. eexists. eexists. split; [exact Hrun|]. intros p [].
  - eexists. eexists. split; [exact Hrun|].
    destruct (placeLoop_entries _ _ _ _ _ Hloop) as [Hnd Hent].
    intros p Hp.
    destruct (mapGet (referenced_student_text_quote p) (matchedPassages st))
      as [v|] eqn:E.
    + apply mapGet_In in E. destruct (Hent _ _ E) as [_ Hq].
      eexists. split.
      * apply in_or_app. left. apply jsSort_In.
        unfold matchedAnnotationsData, mapValues.
        apply in_map, in_map_iff. exists (referenced_student_text_quote p, v).
        split; [reflexivity | exact E].
      * simpl. exact Hq.
    + assert (Hun : In p (unmatchedPassages passages (matchedPassages st))).
      { apply filter_In. split; [exact Hp|]. unfold mapHas. rewrite E.
        reflexivity. }
      apply indexed_In in Hun. destruct Hun as [i Hi].
      exists (unmatchedAnnotation (i, p)). split; [|reflexivity].
      apply in_or_app. right. apply in_map. exact Hi.
Qed.

Lemma every_quote_annotated_witness :
  exists html annotations,
    annotateLatin1 riverbankText
      [passage "the riverbank is" "first"; passage "the riverbank is" "second"]
    = Normal (html, annotations)
    /\ forall p,
         In p [passage "the riverbank is" "first";
               passage "the riverbank is" "second"] ->
         exists a, In a annotations
                   /\ Annotation.quote a = referenced_student_text_quote p.
Proof.
  apply (@every_quote_annotated toLowerCaseLatin1 SmallRegExp.matchIndex None
           riverbankText
           [passage "the riverbank is" "first";
            passage "the riverbank is" "second"]).
  vm_compute. discriminate.
Defined.

(** ** Rendering *)

Lemma renderedHtml_counts (html : jsstring) :
  Forall (fun c => c <> 10%N) (renderedHtml html)
  /\ strlen (renderedHtml html)
     = strlen html + 5 * Z.of_nat (count_occ N.eq_dec html 10%N)
  /\ (count_occ N.eq_dec html 10%N = 0%nat -> renderedHtml html = html).
Proof.
  unfold renderedHtml, replaceClass, strlen.
  induction html as [|c html (IH1 & IH2 & IH3)].
  - repeat split; constructor.
  - cbn [flat_map]. rewrite length_app.
    destruct (N.eq_dec c 10) as [->|Hc].
    + rewrite count_occ_cons_eq by reflexivity.
      rewrite N.eqb_refl.
      split; [|split].
      * apply Forall_app. split; [|exact IH1].
        repeat (constructor; [discriminate|]). constructor.
      * change (length (lit "<br />")) with 6%nat.
        unfold jsstring, char in *. cbn [length].
        rewrite !Nat2Z.inj_add, !Nat2Z.inj_succ, IH2. lia.
      * discriminate.
    + assert (E : (10 =? c)%N = false) by (apply N.eqb_neq; congruence).
      rewrite E, count_occ_cons_neq by congruence.
      split; [|split].
      * constructor; [exact Hc | exact IH1].
      * unfold jsstring, char in *. cbn [length app].
        rewrite !Nat2Z.inj_succ, IH2. lia.
      * intros H. cbn [app]. f_equal. apply IH3, H.
Qed.

(** A text is its lines joined by line feeds, and the rendered text is
    the same lines joined by the [br] tag. *)
Lemma renderedHtml_lines (html : jsstring) :
  exists line lines,
    Forall (fun l => ~ In 10%N l) (line :: lines)
    /\ html = join [10%N] (line :: lines)
    /\ renderedHtml html = join (lit "<br />") (line :: lines).
Proof.
  unfold renderedHtml, replaceClass.
  induction html as [|c html (line & lines & Hno & Hjoin & Hrender)].
  - exists [], []. repeat split. constructor; [intros []|constructor].
  - cbn [flat_map]. rewrite Hrender.
    destruct (N.eq_dec c 10) as [->|Hc].
    + rewrite N.eqb_refl.
      exists [], (line :: lines). split; [|split].
      * constructor; [intros []|exact Hno].
      * rewrite Hjoin at 1. reflexivity.
      * reflexivity.
    + assert (E : (10 =? c)%N = false) by (apply N.eqb_neq; congruence).
      rewrite E.
      exists (c :: line), lines. split; [|split].
      * inversion_clear Hno as [|? ? Hline Hlines].
        constructor; [|exact Hlines].
        intros [Hin|Hin]; [congruence | exact (Hline Hin)].
      * rewrite Hjoin at 1. destruct lines; reflexivity.
      * destruct lines; reflexivity.
Qed.

(** X11.  Rendering writes a [br] tag for every line feed of the marked
    text and leaves every other code unit where it is: the marked text is
    lines without line feed joined by line feeds, and the rendered text is
    these lines joined by the tag.  So the rendered text has no line feed,
    it is longer by five code units for every line feed, and a marked text
    without line feed is handed over as it is. *)
Theorem renderedHtml_line_feeds (html : jsstring) :
  (exists lines,
     Forall (fun line => ~ In 10%N line) lines
     /\ html = join [10%N] lines
     /\ renderedHtml html = join (lit "<br />") lines)
  /\ Forall (fun c => c <> 10%N) (renderedHtml html)
  /\ strlen (renderedHtml html)
     = strlen html + 5 * Z.of_nat (count_occ N.eq_dec html 10%N)
  /\ (count_occ N.eq_dec html 10%N = 0%nat -> renderedHtml html = html).
Proof.
  split; [|apply renderedHtml_counts].
  destruct (renderedHtml_lines html) as (line & lines & H).
  exists (line :: lines). exact H.
Qed.

Lemma renderedHtml_line_feeds_witness :
  (exists lines,
     Forall (fun line => ~ In 10%N line) lines
     /\ twoLines = join [10%N] lines
     /\ renderedHtml twoLines = join (lit "<br />") lines)
  /\ strlen (renderedHtml twoLines) = strlen twoLines + 10
  /\ renderedHtml riverbankText = riverbankText.
Proof.
  split; [|split].
  - exact (proj1 (renderedHtml_line_feeds twoLines)).
  - exact (proj1 (proj2 (proj2 (renderedHtml_line_feeds twoLines)))).
  - destruct (renderedHtml_line_feeds riverbankText) as (_ & _ & _ & Hsame).
    apply Hsame. vm_compute. reflexivity.
Defined.

Example renderedHtml_two_lines :
  renderedHtml twoLines
  = lit "first line<br />second line<br />".
Proof. vm_compute. reflexivity. Qed.

(** * Properties of the paper search *)

Lemma StronglySorted_app_inv {A} (R : A -> A -> Prop) (a b : list A) :
  StronglySorted R (a ++ b) ->
  StronglySorted R a
  /\ StronglySorted R b
  /\ forall x y, In x a -> In y b -> R x y.
Proof.
  induction a as [|x a IH]; simpl; intros H.
  - split; [constructor|]. split; [exact H|]. intros x y [].
  - apply StronglySorted_inv in H. destruct H as [Hs Hall].
    destruct (IH Hs) as (Ha & Hb & Hab).
    rewrite Forall_app in Hall. destruct Hall as [Hxa Hxb].
    split; [constructor; assumption|]. split; [exact Hb|].
    intros x' y [<-|Hx'] Hy.
    + rewrite Forall_forall in Hxb. apply Hxb, Hy.
    + apply Hab; assumption.
Qed.

Lemma firstn_In {A} (n : nat) (l : list A) (x : A) :
  In x (firstn n l) -> In x l.
Proof.
  intros H. rewrite <- (firstn_skipn n l). apply in_or_app. left. exact H.
Qed.

Section OpenAlexFacts.

Import OpenAlex.

Variable dateTime : jsstring -> number.

Lemma truthy_nonempty (s : jsstring) : truthy s = true <-> s <> [].
Proof. destruct s; simpl; split; congruence. Qed.

Lemma comparePapers_sorted (papers : list Paper) :
  StronglySorted (fun a b => citationCount b <= citationCount a)
    (jsSort (comparePapers dateTime) papers).
Proof.
  apply jsSort_sorted with (ok := fun _ => True).
  - intros x y z; lia.
  - intros x y _ _. unfold comparePapers.
    destruct (citationCount y - citationCount x =? 0) eqn:E; simpl.
    + apply Z.eqb_eq in E. intros _. lia.
    + rewrite Z.ltb_ge. lia.
  - intros x y _ _. unfold comparePapers.
    destruct (citationCount y - citationCount x =? 0) eqn:E; simpl.
    + apply Z.eqb_eq in E. intros _. lia.
    + rewrite Z.ltb_lt. lia.
  - apply Forall_forall; auto.
Qed.

Lemma selectPapers_firstn (results : list Work) :
  selectPapers dateTime results
  = firstn 4 (jsSort (comparePapers dateTime)
                (filter keepPaper (map formatPaper results))).
Proof. reflexivity. Qed.

End OpenAlexFacts.

(** X12.  The papers of the response are at most four; each is the
    formatted form of a work of the answer and has a title, a link and an
    abstract or a venue; when at most four works qualify, all of them are
    returned. *)
Theorem selectPapers_qualified
  (dateTime : jsstring -> number) (results : list OpenAlex.Work) :
  let qualifying :=
    filter OpenAlex.keepPaper (map OpenAlex.formatPaper results) in
  let papers := OpenAlex.selectPapers dateTime results in
  (length papers <= 4)%nat
  /\ Forall (fun p =>
               (exists w, In w results /\ p = OpenAlex.formatPaper w)
               /\ OpenAlex.title p <> [] /\ OpenAlex.url p <> []
               /\ (OpenAlex.abstract p <> [] \/ OpenAlex.venue p <> []))
       papers
  /\ ((length qualifying <= 4)%nat -> Permutation papers qualifying).
Proof.
  intros qualifying papers. subst papers.
  rewrite selectPapers_firstn. fold qualifying.
  split; [apply firstn_le_length|]. split.
  - apply Forall_forall. intros p Hp.
    apply firstn_In in Hp. fold qualifying in Hp.
    apply jsSort_In in Hp. apply filter_In in Hp. destruct Hp as [Hin Hkeep].
    apply in_map_iff in Hin. destruct Hin as (w & <- & Hw).
    split; [exists w; auto|].
    unfold OpenAlex.keepPaper in Hkeep.
    rewrite !andb_true_iff, orb_true_iff, !truthy_nonempty in Hkeep.
    tauto.
  - intros Hlen. rewrite firstn_all2 by (rewrite jsSort_length; exact Hlen).
    apply jsSort_perm.
Qed.

Lemma selectPapers_qualified_witness :
  Permutation (OpenAlex.selectPapers (fun _ => NaN) [sampleWork 3; sampleWork 7])
    (filter OpenAlex.keepPaper
       (map OpenAlex.formatPaper [sampleWork 3; sampleWork 7])).
Proof.
  apply (selectPapers_qualified (fun _ => NaN) [sampleWork 3; sampleWork 7]).
  vm_compute. repeat constructor.
Defined.

(** X14.  The papers of the response are in descending order of
    citations, and no qualifying work that is left out has more citations
    than one that is returned. *)
Theorem selectPapers_ranked
  (dateTime : jsstring -> number) (results : list OpenAlex.Work) :
  let papers := OpenAlex.selectPapers dateTime results in
  StronglySorted
    (fun a b => OpenAlex.citationCount b <= OpenAlex.citationCount a) papers
  /\ exists leftOut,
       Permutation (papers ++ leftOut)
         (filter OpenAlex.keepPaper (map OpenAlex.formatPaper results))
       /\ Forall (fun a =>
                    Forall (fun b => OpenAlex.citationCount b
                                     <= OpenAlex.citationCount a) leftOut)
            papers.
Proof.
  intros papers. subst papers. rewrite selectPapers_firstn.
  set (sorted := jsSort (OpenAlex.comparePapers dateTime)
                   (filter OpenAlex.keepPaper
                      (map OpenAlex.formatPaper results))).
  pose proof (comparePapers_sorted dateTime
                (filter OpenAlex.keepPaper
                   (map OpenAlex.formatPaper results))) as Hs.
  fold sorted in Hs. rewrite <- (firstn_skipn 4 sorted) in Hs.
  apply StronglySorted_app_inv in Hs. destruct Hs as (H1 & _ & H12).
  split; [exact H1|].
  exists (skipn 4 sorted). split.
  - rewrite firstn_skipn. apply jsSort_perm.
  - apply Forall_forall. intros a Ha. apply Forall_forall. intros b Hb.
    apply H12; assumption.
Qed.

(** * Properties of the cut of the JSON text *)

(** The first occurrence of a code unit. *)
Lemma indexOfFrom_char (c : char) (hay : jsstring) (pos : Z) :
  (indexOfFrom [c] hay pos = -1 /\ ~ In c hay)
  \/ exists a b,
       hay = a ++ c :: b /\ ~ In c a
       /\ indexOfFrom [c] hay pos = pos + strlen a.
Proof.
  revert pos; induction hay as [|x hay IH]; intros pos.
  - left. split; [reflexivity | intros []].
  - cbn [indexOfFrom startsWith]. rewrite andb_true_r.
    destruct (c =? x)%N eqn:E.
    + apply N.eqb_eq in E. subst x. right. exists [], hay.
      split; [reflexivity|]. split; [intros []|]. unfold strlen; simpl; lia.
    + apply N.eqb_neq in E.
      destruct (IH (pos + 1)) as [[Hneg Hnot]|(a & b & -> & Hnot & Hidx)].
      * left. split; [exact Hneg|]. intros [Hx|Hin]; [congruence|tauto].
      * right. exists (x :: a), b. split; [reflexivity|].
        split; [intros [Hx|Hin]; [congruence|tauto]|].
        rewrite Hidx. unfold strlen. simpl length. lia.
Qed.

(** The last occurrence of a code unit. *)
Lemma lastIndexOfFrom_char (c : char) (hay : jsstring) (pos : Z) :
  0 <= pos ->
  (lastIndexOfFrom [c] hay pos = -1 /\ ~ In c hay)
  \/ exists a b,
       hay = a ++ c :: b /\ ~ In c b
       /\ lastIndexOfFrom [c] hay pos = pos + strlen a.
Proof.
  revert pos; induction hay as [|x hay IH]; intros pos Hpos.
  - left. split; [reflexivity | intros []].
  - cbn [lastIndexOfFrom startsWith]. rewrite andb_true_r.
    destruct (IH (pos + 1) ltac:(lia))
      as [[Hneg Hnot]|(a & b & -> & Hnot & Hidx)].
    + rewrite Hneg. cbn [Z.leb Z.compare].
      destruct (c =? x)%N eqn:E.
      * apply N.eqb_eq in E. subst x. right. exists [], hay.
        split; [reflexivity|]. split; [exact Hnot|].
        unfold strlen; simpl; lia.
      * apply N.eqb_neq in E. left. split; [reflexivity|].
        intros [Hx|Hin]; [congruence|tauto].
    + rewrite Hidx.
      pose proof (strlen_nonneg a).
      destruct (0 <=? pos + 1 + strlen a) eqn:E;
        [|apply Z.leb_gt in E; lia].
      right. exists (x :: a), b. split; [reflexivity|].
      split; [exact Hnot|]. unfold strlen. simpl length. lia.
Qed.

Lemma substring_middle (a m b : jsstring) :
  substring (a ++ m ++ b) (strlen a) (strlen a + strlen m) = m.
Proof.
  unfold substring, clampIndex, strlen.
  rewrite !length_app.
  replace (Z.to_nat (Z.max 0 (Z.min (Z.of_nat (length a + (length m + length b)))
                                (Z.of_nat (length a)))))
    with (length a) by lia.
  replace (Z.to_nat (Z.max 0 (Z.min (Z.of_nat (length a + (length m + length b)))
                                (Z.of_nat (length a) + Z.of_nat (length m)))))
    with (length a + length m)%nat by lia.
  rewrite Nat.min_l, Nat.max_r by lia.
  rewrite skipn_app, skipn_all, Nat.sub_diag. simpl.
  replace (length a + length m - length a)%nat with (length m) by lia.
  rewrite firstn_app, firstn_all, Nat.sub_diag. simpl.
  apply app_nil_r.
Qed.

Lemma nth_error_middle {A} (a b : list A) (x : A) :
  nth_error (a ++ x :: b) (length a) = Some x.
Proof. rewrite nth_error_app2, Nat.sub_diag by lia. reflexivity. Qed.

(** Two ways to cut a text at a code unit, the first before the
    second. *)
Lemma split_twice {A} (a1 b1 a2 b2 : list A) (x y : A) :
  a1 ++ x :: b1 = a2 ++ y :: b2 ->
  (length a1 < length a2)%nat ->
  exists inner, a2 = a1 ++ x :: inner /\ b1 = inner ++ y :: b2.
Proof.
  revert a2; induction a1 as [|z a1 IH]; intros [|w a2]; simpl;
    intros E Hlen; try lia.
  - injection E as -> ->. exists a2. split; reflexivity.
  - injection E as -> E.
    destruct (IH a2 E ltac:(lia)) as (inner & -> & ->).
    exists inner. split; reflexivity.
Qed.

(** X15.  The JSON text cut out of an answer goes from the first opening
    brace to the last closing brace: it starts with an opening and ends
    with a closing brace, no opening brace is before it and no closing
    brace behind it.  The cut fails exactly when no opening brace of the
    answer has a closing brace behind it. *)
Theorem extractJsonString_braces (responseText : jsstring) :
  match extractJsonString responseText with
  | Some jsonString =>
      exists before inner behind,
        responseText = before ++ jsonString ++ behind
        /\ jsonString = OPEN_BRACE :: inner ++ [CLOSE_BRACE]
        /\ ~ In OPEN_BRACE before
        /\ ~ In CLOSE_BRACE behind
  | None =>
      forall a b c,
        responseText <> a ++ OPEN_BRACE :: b ++ CLOSE_BRACE :: c
  end.
Proof.
  unfold extractJsonString, indexOf, lastIndexOf.
  destruct (indexOfFrom_char OPEN_BRACE responseText 0)
    as [[Hs Hno]|(a1 & b1 & E1 & Hno1 & Hs)];
    rewrite Hs.
  - cbn [Z.eqb orb]. intros a b c E. apply Hno. rewrite E.
    apply in_or_app. right. left. reflexivity.
  - pose proof (strlen_nonneg a1) as Ha1.
    destruct (0 + strlen a1 =? -1) eqn:Es; [apply Z.eqb_eq in Es; lia|].
    cbn [orb].
    destruct (@lastIndexOfFrom_char CLOSE_BRACE responseText 0 ltac:(lia))
      as [[He Hno]|(a2 & b2 & E2 & Hno2 & He)];
      rewrite He.
    + cbn [Z.eqb orb]. intros a b c E. apply Hno. rewrite E.
      apply in_or_app. right. right.
      apply in_or_app. right. left. reflexivity.
    + pose proof (strlen_nonneg a2) as Ha2.
      destruct (0 + strlen a2 =? -1) eqn:Ee; [apply Z.eqb_eq in Ee; lia|].
      cbn [orb].
      destruct (0 + strlen a2 <? 0 + strlen a1) eqn:Elt.
      * apply Z.ltb_lt in Elt. intros a b c E.
        assert (Hfirst : (length a1 <= length a)%nat).
        { destruct (Nat.le_gt_cases (length a1) (length a)) as [H|H];
            [exact H|].
          exfalso. apply Hno1.
          pose proof (nth_error_middle a (b ++ CLOSE_BRACE :: c) OPEN_BRACE)
            as Hn.
          rewrite <- E, E1, nth_error_app1 in Hn by exact H.
          eapply nth_error_In, Hn. }
        assert (Hlast : (length a + 1 + length b <= length a2)%nat).
        { destruct (Nat.le_gt_cases (length a + 1 + length b) (length a2))
            as [H|H]; [exact H|].
          exfalso. apply Hno2.
          pose proof (nth_error_middle (a ++ OPEN_BRACE :: b) c CLOSE_BRACE)
            as Hn.
          rewrite <- app_assoc in Hn. cbn [app] in Hn.
          rewrite <- E, E2 in Hn.
          rewrite length_app in Hn. cbn [length] in Hn.
          rewrite nth_error_app2 in Hn by lia.
          replace (length a + S (length b) - length a2)%nat
            with (S (length a + S (length b) - length a2 - 1)) in Hn by lia.
          cbn [nth_error] in Hn. eapply nth_error_In, Hn. }
        unfold strlen in Elt. lia.
      * apply Z.ltb_ge in Elt.
        assert (Hlt : (length a1 < length a2)%nat).
        { assert (Hne : length a1 <> length a2).
          { intros Heq.
            pose proof (nth_error_middle a1 b1 OPEN_BRACE) as H1.
            pose proof (nth_error_middle a2 b2 CLOSE_BRACE) as H2.
            rewrite <- E1 in H1. rewrite <- E2, <- Heq, H1 in H2.
            discriminate H2. }
          unfold strlen in Elt. lia. }
        rewrite E1 in E2.
        destruct (split_twice _ _ _ _ _ _ E2 Hlt) as (inner & -> & ->).
        exists a1, inner, b2.
        assert (Hcut : substring responseText (0 + strlen a1)
                         (0 + strlen (a1 ++ OPEN_BRACE :: inner) + 1)
                       = OPEN_BRACE :: inner ++ [CLOSE_BRACE]).
        { rewrite E1.
          replace (a1 ++ OPEN_BRACE :: inner ++ CLOSE_BRACE :: b2)
            with (a1 ++ (OPEN_BRACE :: inner ++ [CLOSE_BRACE]) ++ b2)
            by (cbn [app]; rewrite <- app_assoc; reflexivity).
          replace (0 + strlen (a1 ++ OPEN_BRACE :: inner) + 1)
            with (strlen a1 + strlen (OPEN_BRACE :: inner ++ [CLOSE_BRACE]))
            by (unfold strlen; cbn [length];
                rewrite !length_app; cbn [length]; lia).
          rewrite Z.add_0_l. apply substring_middle. }
        rewrite Hcut. split; [|split; [reflexivity|split; assumption]].
        rewrite E1. cbn [app]. rewrite <- app_assoc. reflexivity.
Qed.

Lemma extractJsonString_braces_witness :
  exists before inner behind,
    lit "Sure: {'a': 1} done" = before ++ lit "{'a': 1}" ++ behind
    /\ lit "{'a': 1}" = OPEN_BRACE :: inner ++ [CLOSE_BRACE]
    /\ ~ In OPEN_BRACE before
    /\ ~ In CLOSE_BRACE behind.
Proof. exact (extractJsonString_braces (lit "Sure: {'a': 1} done")). Defined.

Example extractJsonString_fenced :
  extractJsonString (lit "Here it is: {'a': {'b': 1}} as asked")
  = Some (lit "{'a': {'b': 1}}").
Proof. vm_compute. reflexivity. Qed.

Example extractJsonString_reversed :
  extractJsonString (lit "} nothing {") = None.
Proof. vm_compute. reflexivity. Qed.

Example selectPapers_by_citations :
  map OpenAlex.citationCount
    (OpenAlex.selectPapers (fun _ => NaN)
       [sampleWork 3; sampleWork 7; sampleWork 0; sampleWork 9;
        sampleWork 5; sampleWork 1])
  = [9; 7; 5; 3].
Proof. vm_compute. reflexivity. Qed.

(** * Further properties of the placement *)



Section ShortQuotes.

Variable toLowerCase : jsstring -> jsstring.
Variable regExpMatchIndex : jsstring -> jsstring -> Completion (option Z).
Variable activeAnnotationId : option jsstring.

Lemma placeLoop_long_keys originalHtml pmap passages st st' :
  (forall k, In k (map fst (matchedPassages st)) -> 10 <= strlen k) ->
  placeLoop toLowerCase regExpMatchIndex activeAnnotationId
    originalHtml pmap st passages = Normal st' ->
  forall k, In k (map fst (matchedPassages st')) -> 10 <= strlen k.
Proof.
  apply (@placeLoop_invariant toLowerCase regExpMatchIndex activeAnnotationId
           (fun s => forall k, In k (map fst (matchedPassages s)) ->
                               10 <= strlen k)
           originalHtml pmap).
  intros s p s' Hs Hp.
  apply placeStep_inv in Hp.
  destruct Hp as [->|(info & mt & om & _ & Hm & _ & _ & Hset)]; [exact Hs|].
  intros k Hk. rewrite Hset, mapSet_keys in Hk.
  assert (Hlong : 10 <= strlen (referenced_student_text_quote p)).
  { apply findBestSubstringMatch_tiers in Hm. apply Hm. }
  destruct (mapHas _ _); [apply Hs, Hk|].
  apply in_app_or in Hk. destruct Hk as [Hk|[<-|[]]];
    [apply Hs, Hk | exact Hlong].
Qed.

End ShortQuotes.

(** X17.  For a text that is not empty, a passage with a quote shorter
    than 10 code units is never marked: it is returned as an unmatched
    annotation with its own quote, comment and guideline. *)
Theorem short_quote_unmatched
  (toLowerCase : jsstring -> jsstring)
  (regExpMatchIndex : jsstring -> jsstring -> Completion (option Z))
  (activeAnnotationId : option jsstring)
  (markdownProposal : jsstring) (passages : list FeedbackPassage)
  (p : FeedbackPassage) :
  markdownProposal <> [] ->
  In p passages ->
  strlen (referenced_student_text_quote p) < 10 ->
  exists html annotations i,
    annotate toLowerCase regExpMatchIndex activeAnnotationId
      markdownProposal passages
    = Normal (html, annotations)
    /\ In (unmatchedAnnotation (i, p)) annotations.
Proof.
  intros Hdoc Hp Hshort.
  destruct (annotate_cases toLowerCase regExpMatchIndex activeAnnotationId
              markdownProposal passages)
    as [[[Hd|Hnil] Hrun]|(_ & _ & st & Hloop & Hrun)].
  - contradiction.
  - subst passages. destruct Hp.
  - assert (Hun : In p (unmatchedPassages passages (matchedPassages st))).
    { apply filter_In. split; [exact Hp|].
      destruct (mapHas _ _) eqn:E; [|reflexivity].
      apply mapHas_keys in E.
      pose proof (placeLoop_long_keys toLowerCase regExpMatchIndex
                    activeAnnotationId markdownProposal
                    (passageMap passages) (sortedPassages passages)
                    (initialState markdownProposal)
                    (fun k (H : In k []) => match H with end) Hloop _ E).
      lia. }
    apply indexed_In in Hun. destruct Hun as [i Hi].
    eexists. eexists. exists i. split; [exact Hrun|].
    apply in_or_app. right. apply in_map. exact Hi.
Qed.

Lemma short_quote_unmatched_witness :
  exists html annotations i,
    annotateLatin1 riverbankText
      [passage "the riverbank is" "first"; passage "fox" "second"]
    = Normal (html, annotations)
    /\ In (unmatchedAnnotation (i, passage "fox" "second")) annotations.
Proof.
  apply (@short_quote_unmatched toLowerCaseLatin1 SmallRegExp.matchIndex None
           riverbankText
           [passage "the riverbank is" "first"; passage "fox" "second"]
           (passage "fox" "second")).
  - vm_compute. discriminate.
  - right. left. reflexivity.
  - vm_compute. reflexivity.
Defined.

(** ** One record for each passage *)

(** X18.  For a text that is not empty and passages with distinct
    quotes, the returned annotations are the records of the passages, one
    for each: the quote, the comment and the guideline of every passage,
    and as many annotations as passages. *)
Theorem one_record_per_distinct_quote
  (toLowerCase : jsstring -> jsstring)
  (regExpMatchIndex : jsstring -> jsstring -> Completion (option Z))
  (activeAnnotationId : option jsstring)
  (markdownProposal : jsstring) (passages : list FeedbackPassage) :
  markdownProposal <> [] ->
  NoDup (map referenced_student_text_quote passages) ->
  exists html annotations,
    annotate toLowerCase regExpMatchIndex activeAnnotationId
      markdownProposal passages
    = Normal (html, annotations)
    /\ oneRecordPerPassage passages annotations
    /\ length annotations = length passages.
Proof.
  intros Hdoc Hnd.
  assert (Hlen : forall annotations,
             oneRecordPerPassage passages annotations ->
             length annotations = length passages).
  { intros annotations H. apply Permutation_length in H.
    rewrite !length_map in H. exact H. }
  destruct (annotate_cases toLowerCase regExpMatchIndex activeAnnotationId
              markdownProposal passages)
    as [[[Hd|Hp] Hrun]|(_ & _ & st & Hloop & Hrun)].
  - contradiction.
  - subst passages. exists markdownProposal, [].
    repeat split; [exact Hrun | constructor].
  - eexists. eexists. split; [exact Hrun|].
    assert (Hone : oneRecordPerPassage passages
                     (jsSort compareStartIndex
                        (matchedAnnotationsData (matchedPassages st))
                      ++ map unmatchedAnnotation
                           (indexed (unmatchedPassages passages
                                       (matchedPassages st))))).
    { unfold oneRecordPerPassage.
      etransitivity;
        [apply Permutation_map, Permutation_app_tail, jsSort_perm|].
      apply entered_records with (sorted := sortedPassages passages).
      - apply jsSort_perm.
      - change (sortedPassages passages) with ([] ++ sortedPassages passages).
        eapply placeLoop_entered; [| |exact Hloop].
        + simpl. eapply Permutation_NoDup; [|exact Hnd].
          apply Permutation_map, Permutation_sym, jsSort_perm.
        + split; simpl; [reflexivity | discriminate]. }
    split; [exact Hone | apply Hlen, Hone].
Qed.

Lemma one_record_per_distinct_quote_witness :
  exists html annotations,
    annotateLatin1 riverbankText
      [passage "the riverbank is" "first"; passage "fox" "second"]
    = Normal (html, annotations)
    /\ oneRecordPerPassage
         [passage "the riverbank is" "first"; passage "fox" "second"]
         annotations
    /\ length annotations = 2%nat.
Proof.
  apply (@one_record_per_distinct_quote toLowerCaseLatin1
           SmallRegExp.matchIndex None riverbankText
           [passage "the riverbank is" "first"; passage "fox" "second"]).
  - vm_compute. discriminate.
  - vm_compute. repeat constructor; simpl; intuition discriminate.
Defined.

(** ** The single-word fallback *)

(** X19.  The fallback tries the tokens of the quote longer than 5,
    longest first; the first one whose escaped lower-case form occurs in
    the normalized haystack gives the result: the region from 10 before
    the hit to 10 behind the hit plus the length of the quote, cut at 0
    and at the length of the normalized haystack, with similarity 0.7.
    For a token in which nothing is escaped the search is the one of the
    lower-case token, and a quote of at least 10 code units with such a
    token in the normalized haystack is matched. *)
Theorem single_word_fallback
  (toLowerCase : jsstring -> jsstring)
  (regExpMatchIndex : jsstring -> jsstring -> Completion (option Z))
  (needle haystack : jsstring) :
  let hn := normalizeText toLowerCase haystack in
  let tried := significantWordsOf (wordsOf needle) in
  Permutation tried (filter (fun w => 5 <? strlen w) (wordsOf needle))
  /\ StronglySorted (fun a b => strlen b <= strlen a) tried
  /\ (forall before word rest,
        tried = before ++ word :: rest ->
        (forall w, In w before -> wordIndex toLowerCase hn w < 0) ->
        0 <= wordIndex toLowerCase hn word ->
        singleWordStrategy toLowerCase needle haystack hn tried
        = Normal (Some (wordHit needle haystack hn
                          (wordIndex toLowerCase hn word))))
  /\ (forall word,
        isPlain (toLowerCase word) = true ->
        wordIndex toLowerCase hn word = indexOf hn (toLowerCase word))
  /\ (10 <= strlen needle ->
      forall token,
        In token (splitWhiteSpace needle) ->
        5 < strlen token ->
        isPlain (toLowerCase token) = true ->
        0 <= indexOf hn (toLowerCase token) ->
        exists m,
          findBestSubstringMatch toLowerCase regExpMatchIndex needle haystack
          = Normal (Some m)).
Proof.
  intros hn tried.
  split; [apply significantWordsOf_perm|].
  split; [apply significantWordsOf_sorted|].
  split; [|split].
  - intros before word rest -> Hbefore Hword.
    apply singleWordStrategy_first_hit; assumption.
  - intros word Hplain. unfold wordIndex.
    rewrite escapeRegExp_plain by exact Hplain. reflexivity.
  - intros Hlen token Hin Htok Hplain Hidx.
    apply findBestSubstringMatch_long_token with (token := token);
      try assumption.
    unfold wordIndex. rewrite escapeRegExp_plain by exact Hplain.
    exact Hidx.
Qed.

Lemma single_word_fallback_witness :
  exists m, findLatin1 (lit "the riverbank is") riverbankText = Normal (Some m).
Proof.
  destruct (single_word_fallback toLowerCaseLatin1 SmallRegExp.matchIndex
              (lit "the riverbank is") riverbankText)
    as (_ & _ & _ & _ & Hmatch).
  apply (Hmatch ltac:(vm_compute; discriminate) (lit "riverbank")).
  - vm_compute. auto.
  - vm_compute. reflexivity.
  - vm_compute. reflexivity.
  - vm_compute. discriminate.
Defined.
